(** * IP address extraction from log files: the chunked extraction pipeline

    A shallow embedding of [IPExtractor] (src/main.py): the compiled
    pattern [IP_PATTERN], [validate_ip], [_process_chunk] and
    [extract_ips_from_file], with the properties of the specification
    stated over them; then [connect_to_mongodb], [main] and the loop that
    calls it, over a model of the document store. *)

From Stdlib Require Import Ascii String ZArith Lia.
From stdpp Require Import base list sorting gmap strings pretty.

Local Open Scope string_scope.
Local Open Scope list_scope.

(** ** Byte strings and text

    A Python [bytes] object is a list of 8-bit characters; a Python [str]
    holding ASCII text is a [string]. *)

Abbreviation bytes := (list ascii) (only parsing).

(** The bytes literal [b'...']. *)
Definition b (s : string) : bytes := list_ascii_of_string s.

Module Bytes.

Definition in_range (lo hi c : ascii) : bool :=
  (nat_of_ascii lo <=? nat_of_ascii c)%nat && (nat_of_ascii c <=? nat_of_ascii hi)%nat.

Definition is_digit (c : ascii) : bool := in_range "0" "9" c.

(** [\w] of a bytes pattern: [[a-zA-Z0-9_]]. *)
Definition is_word (c : ascii) : bool :=
  in_range "a" "z" c || in_range "A" "Z" c || is_digit c || Ascii.eqb c "_".

Definition is_word_opt (o : option ascii) : bool :=
  match o with Some c => is_word c | None => false end.

Definition is_ascii (c : ascii) : bool := (nat_of_ascii c <? 128)%nat.

(** [bytes.decode('utf-8', errors='ignore')].  ASCII bytes decode to
    themselves and a byte that starts no valid sequence is dropped; the
    multi-byte sequences of UTF-8 are not modelled, the candidates that
    are decoded hold digits and dots only (see [decode_candidate]). *)
Definition decode (bs : bytes) : string :=
  string_of_list_ascii (filter (fun c => Is_true (is_ascii c)) bs).

End Bytes.

(** ** Regular expressions, as far as [IP_PATTERN] uses them *)

Module Re.

Inductive regex : Type :=
| Eps                             (* the empty pattern *)
| Lit (c : ascii)                 (* a literal byte, [\.] *)
| Range (lo hi : ascii)           (* a class [[lo-hi]] *)
| Cat (r1 r2 : regex)             (* r1 r2 *)
| Alt (r1 r2 : regex)             (* r1|r2, r1 tried first *)
| Opt (r : regex)                 (* r?, greedy *)
| Boundary.                       (* \b *)

(** [r{n}] *)
Fixpoint Rep (n : nat) (r : regex) : regex :=
  match n with
  | O => Eps
  | S n' => Cat r (Rep n' r)
  end.

(** [\b] holds between [prev] and the head of [s] when exactly one of the
    two is a word byte; outside the buffer counts as a non-word byte. *)
Definition at_boundary (prev : option ascii) (s : bytes) : bool :=
  xorb (Bytes.is_word_opt prev) (Bytes.is_word_opt (head s)).

(** The backtracking matcher of [re], in continuation-passing style.
    [run r prev s k] matches [r] at the head of [s], [prev] being the
    byte before it, and hands the byte before the rest and the rest to
    [k]; when [k] fails the next alternative is tried, in the order of
    the [re] module: the left branch of [|] first, [?] greedy. *)
Fixpoint run {X} (r : regex) (prev : option ascii) (s : bytes)
         (k : option ascii -> bytes -> option X) : option X :=
  match r with
  | Eps => k prev s
  | Lit c =>
      match s with
      | d :: s' => if Ascii.eqb c d then k (Some d) s' else None
      | [] => None
      end
  | Range lo hi =>
      match s with
      | d :: s' => if Bytes.in_range lo hi d then k (Some d) s' else None
      | [] => None
      end
  | Cat r1 r2 => run r1 prev s (fun p s' => run r2 p s' k)
  | Alt r1 r2 =>
      match run r1 prev s k with
      | Some x => Some x
      | None => run r2 prev s k
      end
  | Opt r1 =>
      match run r1 prev s k with
      | Some x => Some x
      | None => k prev s
      end
  | Boundary => if at_boundary prev s then k prev s else None
  end.

(** [pattern.match] at one position: the length of the match. *)
Definition match_here (r : regex) (prev : option ascii) (s : bytes) : option nat :=
  run r prev s (fun _ rest => Some (length s - length rest)).

(** [pattern.findall] for a pattern without groups that matches no empty
    string: scan left to right; a match is emitted and the scan resumes
    at its end ([skip] counts the bytes of the match still to pass). *)
Fixpoint scan (r : regex) (prev : option ascii) (s : bytes) (skip : nat) : list bytes :=
  match s with
  | [] => []
  | c :: s' =>
      match skip with
      | S n => scan r (Some c) s' n
      | O =>
          match match_here r prev s with
          | Some len => take len s :: scan r (Some c) s' (len - 1)
          | None => scan r (Some c) s' 0
          end
      end
  end.

Definition findall (r : regex) (s : bytes) : list bytes := scan r None s 0.

End Re.

Import Re.

(** ** The parts of the [ipaddress] module that [validate_ip] calls *)

Module ipaddress.

(** [str.split(sep)] for a one-character separator. *)
Fixpoint split (sep : ascii) (s : string) : list string :=
  match s with
  | EmptyString => [EmptyString]
  | String c s' =>
      if Ascii.eqb c sep then EmptyString :: split sep s'
      else match split sep s' with
           | h :: t => String c h :: t
           | [] => [String c EmptyString]
           end
  end.

Definition digit_value (c : ascii) : Z := Z.of_nat (nat_of_ascii c) - 48.

(** [int(octet_str, 10)] on a string of decimal digits. *)
Definition int10 (digits : list ascii) : Z :=
  fold_left (fun acc c => 10 * acc + digit_value c)%Z digits 0%Z.

(** [IPv4Address._parse_octet]: [None] stands for [ValueError].  Leading
    zeros are refused, as CPython does since 3.9.5. *)
Definition parse_octet (octet_str : string) : option Z :=
  let cs := list_ascii_of_string octet_str in
  match cs with
  | [] => None                                        (* empty octet *)
  | c0 :: _ =>
      if negb (forallb Bytes.is_digit cs) then None   (* only decimal digits *)
      else if (3 <? length cs)%nat then None          (* at most 3 characters *)
      else if negb (String.eqb octet_str "0") && Ascii.eqb c0 "0"
           then None                                  (* no leading zeros *)
      else let octet_int := int10 cs in
           if (255 <? octet_int)%Z then None else Some octet_int
  end.

(** [int.from_bytes(octets, 'big')] *)
Definition from_bytes_big (octets : list Z) : Z :=
  fold_left (fun acc o => Z.lor (Z.shiftl acc 8) o) octets 0%Z.

(** [IPv4Address._ip_int_from_string] *)
Definition ip_int_from_string (ip_str : string) : option Z :=
  if String.eqb ip_str "" then None
  else
    let octets := split "." ip_str in
    if negb (length octets =? 4)%nat then None
    else from_bytes_big <$> mapM parse_octet octets.

(** [ip_address(text)]: the 32-bit integer of an IPv4 address.  [None]
    stands for [ValueError] and for an IPv6 address alike: an IPv6
    address is a member of no IPv4 network, so [validate_ip] answers
    [False] for both. *)
Definition ip_address (ip : string) : option Z := ip_int_from_string ip.

Record network : Type := { network_address : Z; prefixlen : Z }.

Definition ALL_ONES : Z := 2 ^ 32 - 1.

Definition netmask (n : network) : Z :=
  Z.lxor ALL_ONES (Z.shiftr ALL_ONES (prefixlen n)).

(** [address in network] *)
Definition contains (n : network) (ip : Z) : bool :=
  (Z.land ip (netmask n) =? network_address n)%Z.

Definition quad (o1 o2 o3 o4 : Z) : Z := from_bytes_big [o1; o2; o3; o4].

(** [ip_network('a.b.c.d/len')] *)
Definition ip_network (o1 o2 o3 o4 len : Z) : network :=
  {| network_address := quad o1 o2 o3 o4; prefixlen := len |}.

Definition is_unspecified (ip : Z) : bool := (ip =? quad 0 0 0 0)%Z.
Definition is_reserved (ip : Z) : bool := contains (ip_network 240 0 0 0 4) ip.
Definition is_multicast (ip : Z) : bool := contains (ip_network 224 0 0 0 4) ip.

End ipaddress.

(** ** A small exception monad *)

Inductive exc (A : Type) : Type :=
| Ok (a : A)
| Raise.
Arguments Ok {A} a.
Arguments Raise {A}.

#[global] Instance exc_ret : MRet exc := fun A a => Ok a.
#[global] Instance exc_bind : MBind exc := fun A B f m =>
  match m with Ok a => f a | Raise => Raise end.

(** ** [IPExtractor] *)

Abbreviation ip_sets := (gset string * gset string)%type (only parsing).

(** What the run meets outside the program: the file, the failures of the
    runtime, the order in which the pool completes its tasks and the
    iteration order of a set.  A [read] fails in the runtime on an error of
    the device, and when it asks for more bytes than the machine can count
    or allocate ([OverflowError], [MemoryError]); a size that [read] refuses
    on every machine is refused in [file_read]. *)
Record world : Type := {
  is_file : bool;                     (* os.path.isfile(file_path) *)
  content : bytes;                    (* the bytes of the file *)
  open_raises : bool;                 (* open(file_path, 'rb') raises *)
  read_raises : nat -> bool;          (* the runtime fails the k-th file.read *)
  result_raises : nat -> bool;        (* the result() of the k-th task raises *)
  as_completed : list (exc ip_sets) -> list (exc ip_sets);
  list_of_set : gset string -> list string
}.

Module IPExtractor.

Import ipaddress.

Definition PRIVATE_NETWORKS : list network :=
  [ ip_network 10 0 0 0 8;
    ip_network 172 16 0 0 12;
    ip_network 192 168 0 0 16 ].

(** [(?:25[0-5]|2[0-4][0-9]|[01]?[0-9][0-9]?)] *)
Definition OCTET : regex :=
  Alt (Cat (Lit "2") (Cat (Lit "5") (Range "0" "5")))
 (Alt (Cat (Lit "2") (Cat (Range "0" "4") (Range "0" "9")))
      (Cat (Opt (Range "0" "1")) (Cat (Range "0" "9") (Opt (Range "0" "9"))))).

(** [\b(?:OCTET\.){3}OCTET\b] *)
Definition IP_PATTERN : regex :=
  Cat Boundary (Cat (Rep 3 (Cat OCTET (Lit "."))) (Cat OCTET Boundary)).

Definition validate_ip (ip : string) : bool :=
  match ip_address ip with
  | Some ip_obj =>
      negb (is_unspecified ip_obj || is_reserved ip_obj || is_multicast ip_obj)
      && existsb (fun network => contains network ip_obj) PRIVATE_NETWORKS
  | None => false
  end.

(** The body of the loop [for ip in ips]. *)
Definition classify_into (ip : string) (acc : ip_sets) : ip_sets :=
  if validate_ip ip then ({[ ip ]} ∪ acc.1, acc.2) else (acc.1, {[ ip ]} ∪ acc.2).

Definition _process_chunk (chunk : bytes) : ip_sets :=
  let ips : gset string := list_to_set (Bytes.decode <$> findall IP_PATTERN chunk) in
  set_fold classify_into (∅, ∅) ips.

(** [file.read(chunk_size)] on the bytes not yet read: the chunk and the
    bytes left.  The size -1 reads to the end of the file; a size below -1
    is refused with [ValueError]. *)
Definition file_read (chunk_size : Z) (rest : bytes) : exc (bytes * bytes) :=
  if (chunk_size <? -1)%Z then Raise
  else if (chunk_size <? 0)%Z then Ok (rest, [])
  else Ok (take (Z.to_nat chunk_size) rest, drop (Z.to_nat chunk_size) rest).

(** The loop [while True: chunk = file.read(chunk_size) ...]: the chunks
    submitted, [k] counting the calls of [read].  [fuel] bounds the number
    of non-empty chunks; every non-empty chunk takes at least one byte, so
    the number of bytes left is fuel enough ([read_loop_fuel]) and the
    branch without fuel is met with no bytes left only. *)
Fixpoint read_loop (w : world) (chunk_size : Z) (fuel k : nat) (rest : bytes)
  : exc (list bytes) :=
  if read_raises w k then Raise
  else
    match file_read chunk_size rest with
    | Raise => Raise
    | Ok (chunk, rest') =>
        match chunk with
        | [] => Ok []
        | _ :: _ =>
            match fuel with
            | O => Ok [chunk]
            | S fuel' =>
                chunks ← read_loop w chunk_size fuel' (S k) rest'; mret (chunk :: chunks)
            end
        end
    end.

(** [executor.submit(cls._process_chunk, chunk)] for the k-th chunk,
    seen through [future.result()]. *)
Definition submit (w : world) (k : nat) (chunk : bytes) : exc ip_sets :=
  if result_raises w k then Raise else Ok (_process_chunk chunk).

(** The loop [for future in as_completed(futures)]. *)
Fixpoint collect (futures : list (exc ip_sets)) (acc : ip_sets) : exc ip_sets :=
  match futures with
  | [] => Ok acc
  | future :: futures' =>
      r ← future; collect futures' (acc.1 ∪ r.1, acc.2 ∪ r.2)
  end.

Definition str_le (x y : string) : Prop := String.leb x y = true.

#[global] Instance str_le_dec x y : Decision (str_le x y).
Proof. unfold str_le. apply _. Defined.

(** [sorted(...)] on strings. *)
Definition sorted (l : list string) : list string := merge_sort str_le l.

(** The [try] block. *)
Definition try_block (w : world) (chunk_size : Z) : exc ip_sets :=
  if open_raises w then Raise
  else
    chunks ← read_loop w chunk_size (length (content w)) 0 (content w);
    collect (as_completed w (imap (submit w) chunks)) (∅, ∅).

Definition extract_ips_from_file (w : world) (chunk_size : Z)
  : exc (list string * list string) :=
  if negb (is_file w) || (length (content w) =? 0)%nat then Ok ([], [])
  else
    match try_block w chunk_size with
    | Ok (private_ips, public_ips) =>
        Ok (sorted (list_of_set w private_ips), sorted (list_of_set w public_ips))
    | Raise => Ok ([], [])
    end.

End IPExtractor.

Import ipaddress IPExtractor.

(** A readable file with the given bytes, a runtime without failures,
    tasks that complete in the order of submission. *)
Definition plain_file (bs : bytes) : world :=
  {| is_file := true; content := bs; open_raises := false;
     read_raises := fun _ => false; result_raises := fun _ => false;
     as_completed := fun fs => fs; list_of_set := elements |}.

(** ** The vocabulary of the specification *)

(** The texts [r] can consume, whatever surrounds them. *)
Fixpoint shape (r : regex) (t : bytes) : Prop :=
  match r with
  | Eps => t = []
  | Lit c => t = [c]
  | Range lo hi => exists d, t = [d] /\ Bytes.in_range lo hi d = true
  | Cat r1 r2 => exists t1 t2, t = t1 ++ t2 /\ shape r1 t1 /\ shape r2 t2
  | Alt r1 r2 => shape r1 t \/ shape r2 t
  | Opt r1 => shape r1 t \/ t = []
  | Boundary => t = []
  end.

(** An octet as the pattern accepts it: one to three decimal digits whose
    value is at most 255. *)
Definition octet_text (o : bytes) : Prop :=
  1 <= length o <= 3 /\ forallb Bytes.is_digit o = true /\ (0 <= int10 o <= 255)%Z.

Definition dotted_quad (t : bytes) : Prop :=
  exists o1 o2 o3 o4,
    t = o1 ++ "."%char :: o2 ++ "."%char :: o3 ++ "."%char :: o4 /\
    octet_text o1 /\ octet_text o2 /\ octet_text o3 /\ octet_text o4.

(** An octet in canonical form: no leading zero beyond a single "0". *)
Definition canonical_octet (o : bytes) : bool :=
  match o with
  | [] => false
  | c :: o' => negb (Ascii.eqb c "0") || (length o' =? 0)%nat
  end.

(** A dotted quad whose four octets are all in canonical form. *)
Definition canonical_quad (t : bytes) : bool :=
  forallb (fun o => canonical_octet (list_ascii_of_string o))
          (split "." (string_of_list_ascii t)).

(** The candidates of a chunk, decoded. *)
Definition candidates (chunk : bytes) : gset string :=
  list_to_set (Bytes.decode <$> findall IP_PATTERN chunk).

(** The two classes of the specification, as the branch of
    [_process_chunk] assigns them. *)
Inductive address_class : Type := Private | Public.

Definition classify (ip : string) : address_class :=
  if validate_ip ip then Private else Public.

Fixpoint is_prefix (tok s : bytes) : bool :=
  match tok, s with
  | [], _ => true
  | c :: tok', d :: s' => Ascii.eqb c d && is_prefix tok' s'
  | _ :: _, [] => false
  end.

Fixpoint token_scan (tok : bytes) (prev : option ascii) (s : bytes) : bool :=
  (is_prefix tok s && at_boundary prev s
   && at_boundary (last tok) (drop (length tok) s))
  || match s with
     | [] => false
     | c :: s' => token_scan tok (Some c) s'
     end.

(** [tok] occurs somewhere in [s] with a word boundary on both sides. *)
Definition occurs_as_token (tok s : bytes) : bool := token_scan tok None s.

(** The chunks that the loop of [read] calls cuts from [rest] when the
    runtime fails no call: none when [read] refuses the size. *)
Fixpoint chunks_of (chunk_size : Z) (fuel : nat) (rest : bytes) : list bytes :=
  match file_read chunk_size rest with
  | Raise => []
  | Ok (chunk, rest') =>
      match chunk with
      | [] => []
      | _ :: _ =>
          match fuel with
          | O => [chunk]
          | S fuel' => chunk :: chunks_of chunk_size fuel' rest'
          end
      end
  end.

(** The runtime fails no operation of the run. *)
Definition fault_free (w : world) : Prop :=
  open_raises w = false /\
  (forall k, read_raises w k = false) /\
  (forall k, result_raises w k = false).

(** Two runs meet the same file and the same failures; the order in which
    tasks complete and the order in which sets list their members may
    differ. *)
Definition same_input (w1 w2 : world) : Prop :=
  is_file w1 = is_file w2 /\
  content w1 = content w2 /\
  open_raises w1 = open_raises w2 /\
  (forall k, read_raises w1 k = read_raises w2 k) /\
  (forall k, result_raises w1 k = result_raises w2 k).

(** The chunks of a run in which the runtime fails no [read]. *)
Definition file_chunks (w : world) (chunk_size : Z) : list bytes :=
  chunks_of chunk_size (length (content w)) (content w).

(** The runtime is free to complete the tasks in any order and a set is free
    to list its members in any order; both keep what they are given. *)
Definition well_formed (w : world) : Prop :=
  (forall futures, as_completed w futures ≡ₚ futures) /\
  (forall s, list_of_set w s ≡ₚ elements s).



(** A runtime that completes the tasks last to first and lists the members
    of a set in reverse. *)
Definition reversed_file (bs : bytes) : world :=
  {| is_file := true; content := bs; open_raises := false;
     read_raises := fun _ => false; result_raises := fun _ => false;
     as_completed := reverse; list_of_set := fun s => reverse (elements s) |}.


(** ** The inputs of the examples *)

(** The address lies across byte 15. *)
Definition split_token_file : world :=
  plain_file (b "xxxxxxxxxx 10.0.0.5 end").

(** 73 bytes; the address lies across byte 64. *)
Definition split_at_64_file : world :=
  plain_file (repeat "x"%char 60 ++ b " 10.0.0.5 end").

Definition small_file : world := plain_file (b "from 10.0.0.5 to 8.8.8.8").

Definition unspecified_multicast_chunk : bytes := b "0.0.0.0 and 224.0.0.1".

(** The scenario of the specification. *)
Definition scenario_text : bytes :=
  b "connect from 192.168.1.1 to 8.8.8.8 and 10.0.0.5; invalid 999.1.1.1 and 300.1.1.1".


(** The same addresses in several chunks of 20 bytes. *)
Definition repeated_text : bytes :=
  b "10.0.0.5 and 8.8.8.8 then 10.0.0.5 and 8.8.8.8 again 10.0.0.5 with 172.16.0.9".

Definition leading_zero_chunk : bytes := b "host 010.01.1.1 up".

(** "192.168.1.100" is cut after "192.168.1.1" by chunks of 15 bytes. *)
Definition cut_address_file : world := plain_file (b "abc 192.168.1.100 ok").

(** ** Further vocabulary: ranges, positions of matches *)

(** The first two octets of an address of 10/8, 172.16/12 or 192.168/16. *)
Definition in_rfc1918 (a b : Z) : bool :=
  ((a =? 10) || ((a =? 172) && (16 <=? b) && (b <=? 31)) || ((a =? 192) && (b =? 168)))%Z.

(** The byte before the position that follows [t], [prev] being the byte
    before [t]. *)
Definition last_or (prev : option ascii) (t : bytes) : option ascii :=
  match last t with Some c => Some c | None => prev end.

(** [r] consumes [t] between the byte [prev] and the bytes [rest], the
    boundary assertions holding where they stand. *)
Fixpoint accepts (r : regex) (prev : option ascii) (t rest : bytes) : Prop :=
  match r with
  | Eps => t = []
  | Lit c => t = [c]
  | Range lo hi => exists d, t = [d] /\ Bytes.in_range lo hi d = true
  | Cat r1 r2 =>
      exists t1 t2, t = t1 ++ t2 /\
        accepts r1 prev t1 (t2 ++ rest) /\ accepts r2 (last_or prev t1) t2 rest
  | Alt r1 r2 => accepts r1 prev t rest \/ accepts r2 prev t rest
  | Opt r1 => accepts r1 prev t rest \/ t = []
  | Boundary => t = [] /\ at_boundary prev rest = true
  end.

(** [gaps] and [ms] in turn, then [tail]. *)
Fixpoint interleave (gaps ms : list bytes) (tail : bytes) : bytes :=
  match gaps, ms with
  | g :: gaps', m :: ms' => g ++ m ++ interleave gaps' ms' tail
  | _, _ => tail
  end.

(** The byte before a token keeps it apart from what precedes: there is
    none, or it is neither a word byte nor a dot. *)
Definition separated_before (pre : bytes) : Prop :=
  match last pre with
  | Some c => Bytes.is_word c = false /\ c <> "."%char
  | None => True
  end.

(** The byte after a token ends it: there is none, or it is no word byte. *)
Definition ended_after (post : bytes) : Prop :=
  Bytes.is_word_opt (head post) = false.

(** ** The document store and [main]

    The collections of the store are lists of documents in insertion
    order; a document maps its fields to values.  The [_id] that the server
    adds to a new document is left out: the program never reads it.  Log
    records are not modelled. *)

Module Mongo.

Inductive value : Type :=
| VStr (s : string)
| VNum (t : Z).     (* a timestamp of [time.time()]: only stored, never computed with *)

#[global] Instance value_eq_dec : EqDecision value.
Proof. solve_decision. Defined.

Abbreviation document := (gmap string value) (only parsing).
Abbreviation collection := (list (gmap string value)) (only parsing).

(** [UpdateOne(filter, update, upsert=...)] for a filter that asks one field
    to equal a value and an update with [$set] and [$setOnInsert]. *)
Record update_one : Type := {
  filter_field : string;
  filter_value : value;
  set : list (string * value);
  set_on_insert : list (string * value);
  upsert : bool
}.

Definition set_fields (fields : list (string * value)) (d : document) : document :=
  foldl (fun d kv => <[ kv.1 := kv.2 ]> d) d fields.

Definition matches (op : update_one) (d : document) : bool :=
  bool_decide (d !! filter_field op = Some (filter_value op)).

(** The document that an upsert inserts: the field of the filter, then the
    fields of [$set] and of [$setOnInsert]. *)
Definition inserted (op : update_one) : document :=
  set_fields (set_on_insert op)
             (set_fields (set op) {[ filter_field op := filter_value op ]}).

(** One update: the first document that matches gets the fields of [$set];
    when none matches and [upsert] is set, a document is inserted. *)
Fixpoint update (op : update_one) (coll : collection) : collection :=
  match coll with
  | [] => if upsert op then [inserted op] else []
  | d :: coll' =>
      if matches op d then set_fields (set op) d :: coll'
      else d :: update op coll'
  end.

(** A batch, applied in the order given. *)
Definition apply_batch (ops : list update_one) (coll : collection) : collection :=
  foldl (fun coll op => update op coll) coll ops.

Inductive collection_name : Type := PrivateColl | PublicColl.

#[global] Instance collection_name_eq_dec : EqDecision collection_name.
Proof. solve_decision. Defined.

Record store : Type := { private_docs : collection; public_docs : collection }.

Definition docs (target : collection_name) (st : store) : collection :=
  match target with PrivateColl => private_docs st | PublicColl => public_docs st end.

Definition with_docs (target : collection_name) (f : collection -> collection)
           (st : store) : store :=
  match target with
  | PrivateColl => {| private_docs := f (private_docs st); public_docs := public_docs st |}
  | PublicColl => {| private_docs := private_docs st; public_docs := f (public_docs st) |}
  end.

(** What the server does on its side of the calls. *)
Record server : Type := {
  connect_raises : nat -> bool;                  (* the k-th [MongoClient(...)] and ping *)
  create_index_raises : collection_name -> bool;
  bulk_write_raises : collection_name -> bool;
  batch_order : list update_one -> list update_one;
        (* the order in which an unordered batch is applied *)
  applied_before_failure : list update_one -> list update_one;
        (* the operations that a failing batch has applied *)
  count_raises : collection_name -> bool;
  close_raises : bool
}.

(** What a run can be seen to do. *)
Inductive event : Type :=
| EConnect (attempt : nat)
| ECreateIndex (target : collection_name)
| ESleep (seconds : Z)
| EBulkWrite (target : collection_name) (ops : list update_one)
| ECount (target : collection_name)
| EPrint (line : string)
| EClose.

(** Computations that act on the store, leave events and may raise. *)
Definition io (A : Type) : Type := store -> list event * store * exc A.

#[global] Instance io_ret : MRet io := fun A a st => ([], st, Ok a).
#[global] Instance io_bind : MBind io := fun A B f m st =>
  match m st with
  | (events, st', Ok a) =>
      match f a st' with
      | (events', st'', r) => (events ++ events', st'', r)
      end
  | (events, st', Raise) => (events, st', Raise)
  end.

Definition emit (e : event) : io unit := fun st => ([e], st, Ok tt).

Definition raise {A} : io A := fun st => ([], st, Raise).

(** [time.sleep(seconds)] for a whole number of seconds (CPython 3.5 and
    later): a negative length is refused with [ValueError], and a length that
    does not fit the clock, which counts nanoseconds in 64 bits, with
    [OverflowError]; the longest sleep is 9223372036 seconds. *)
Definition sleep (seconds : Z) : io unit :=
  if ((seconds <? 0) || (2 ^ 63 - 1 <? seconds * 10 ^ 9))%Z then raise
  else emit (ESleep seconds).

(** [coll.bulk_write(ops, ordered=False)] *)
Definition bulk_write (srv : server) (target : collection_name)
           (ops : list update_one) : io unit :=
  fun st =>
    if bulk_write_raises srv target
    then ([EBulkWrite target ops],
          with_docs target (apply_batch (applied_before_failure srv ops)) st, Raise)
    else ([EBulkWrite target ops],
          with_docs target (apply_batch (batch_order srv ops)) st, Ok tt).

(** [coll.count_documents({})] *)
Definition count_documents (srv : server) (target : collection_name) : io nat :=
  fun st =>
    if count_raises srv target then ([ECount target], st, Raise)
    else ([ECount target], st, Ok (length (docs target st))).

(** [client.close()] *)
Definition close (srv : server) : io unit :=
  fun st => ([EClose], st, if close_raises srv then Raise else Ok tt).

(** The client and the two collections that [connect_to_mongodb] returns. *)
Record connection : Type := {
  conn_uri : string;
  conn_database : string;
  conn_private : string;
  conn_public : string
}.

(** The inner [try] of [connect_to_mongodb]: an error of [create_index] is
    caught, and skips the second index when it comes from the first. *)
Definition create_indexes (srv : server) : io unit :=
  _ ← emit (ECreateIndex PrivateColl);
  if create_index_raises srv PrivateColl then mret tt
  else emit (ECreateIndex PublicColl).

(** The loop [for attempt in range(max_retries)], [remaining] iterations
    being left. *)
Fixpoint connect_loop (srv : server) (conn : connection)
         (max_retries retry_delay : Z) (remaining attempt : nat)
  : io (option connection) :=
  match remaining with
  | O => mret None
  | S remaining' =>
      _ ← emit (EConnect attempt);
      if connect_raises srv attempt then
        if (Z.of_nat attempt <? max_retries - 1)%Z then
          _ ← sleep retry_delay;
          connect_loop srv conn max_retries retry_delay remaining' (S attempt)
        else mret None
      else
        _ ← create_indexes srv;
        mret (Some conn)
  end.

Definition connect_to_mongodb (srv : server) (uri database private_collection
                                 public_collection : string)
           (max_retries retry_delay : Z) : io (option connection) :=
  connect_loop srv
    {| conn_uri := uri; conn_database := database;
       conn_private := private_collection; conn_public := public_collection |}
    max_retries retry_delay (Z.to_nat max_retries) 0.

(** The operation that [main] builds for one address. *)
Definition upsert_ip (current_time : Z) (ip : string) : update_one :=
  {| filter_field := "ip";
     filter_value := VStr ip;
     set := [("ip", VStr ip); ("last_seen", VNum current_time)];
     set_on_insert := [("first_seen", VNum current_time)];
     upsert := true |}.

(** The block [if private_ips: ...] of [main], and its twin. *)
Definition store_ips (srv : server) (target : collection_name)
           (ips : list string) (current_time : Z) : io unit :=
  match ips with
  | [] => mret tt
  | _ :: _ =>
      let bulk_operations := upsert_ip current_time <$> ips in
      match bulk_operations with
      | [] => mret tt
      | _ :: _ => bulk_write srv target bulk_operations
      end
  end.

(** What a run of [main] meets: the log file and the runtime of the
    extraction, the server, the environment variables and the clock. *)
Record runtime : Type := {
  log_file : world;
  mongo : server;
  getenv : string -> option string;
  now : Z
}.

(** The [try] block of [main]. *)
Definition main_try (rt : runtime) : io unit :=
  let mongodb_uri := default "mongodb://mongodb:27017/" (getenv rt "MONGODB_URI") in
  let database_name := default "ip_extraction" (getenv rt "DATABASE_NAME") in
  client ← connect_to_mongodb (mongo rt) mongodb_uri database_name
             "private_ips" "public_ips" 5 5;
  match client with
  | None => mret tt
  | Some _ =>
      match extract_ips_from_file (log_file rt) (1024 * 1024) with
      | Raise => raise
      | Ok (private_ips, public_ips) =>
          let current_time := now rt in
          _ ← store_ips (mongo rt) PrivateColl private_ips current_time;
          _ ← store_ips (mongo rt) PublicColl public_ips current_time;
          _ ← emit (EPrint ("Private IPs: " +:+ pretty (length private_ips)));
          _ ← emit (EPrint ("Public IPs: " +:+ pretty (length public_ips)));
          private_count ← count_documents (mongo rt) PrivateColl;
          public_count ← count_documents (mongo rt) PublicColl;
          _ ← emit (EPrint ("MongoDB - Total Private IPs stored: " +:+ pretty private_count));
          _ ← emit (EPrint ("MongoDB - Total Public IPs stored: " +:+ pretty public_count));
          close (mongo rt)
      end
  end.

(** [main]: whatever the [try] block raises is caught and logged. *)
Definition main (rt : runtime) (st : store) : list event * store :=
  match main_try rt st with
  | (events, st', _) => (events, st')
  end.

(** The first iterations of the loop of [__main__], each with the runtime
    that it meets. *)
Fixpoint main_loop (rts : list runtime) (st : store) : list event * store :=
  match rts with
  | [] => ([], st)
  | rt :: rts' =>
      match main rt st with
      | (events, st') =>
          match main_loop rts' st' with
          | (events', st'') =>
              (EPrint "Calling Main Function" :: events
                 ++ EPrint "Sleeping for 10 seconds" :: ESleep 10 :: events', st'')
          end
      end
  end.

End Mongo.

Import Mongo.

(** A server on which every call succeeds and batches are applied in the
    order given. *)
Definition plain_server : server :=
  {| connect_raises := fun _ => false;
     create_index_raises := fun _ => false;
     bulk_write_raises := fun _ => false;
     batch_order := fun ops => ops;
     applied_before_failure := fun _ => [];
     count_raises := fun _ => false;
     close_raises := false |}.


Definition unreachable_server : server :=
  {| connect_raises := fun _ => true;
     create_index_raises := fun _ => false;
     bulk_write_raises := fun _ => false;
     batch_order := fun ops => ops;
     applied_before_failure := fun _ => [];
     count_raises := fun _ => false;
     close_raises := false |}.

(** A server whose indexes exist with other options, on which a batch of
    writes fails after its first operation, in reverse order otherwise, and
    on which [close] fails. *)
Definition failing_server : server :=
  {| connect_raises := fun _ => false;
     create_index_raises := fun _ => true;
     bulk_write_raises := fun _ => true;
     batch_order := reverse;
     applied_before_failure := take 1;
     count_raises := fun _ => false;
     close_raises := true |}.

Definition runtime_on (srv : server) (bs : bytes) (t : Z) : runtime :=
  {| log_file := plain_file bs; mongo := srv; getenv := fun _ => None; now := t |}.

Definition plain_runtime (bs : bytes) (t : Z) : runtime := runtime_on plain_server bs t.

Definition empty_store : store := {| private_docs := []; public_docs := [] |}.

(** ** Vocabulary for the store *)

(** The documents of a collection that carry the address [ip]. *)
Definition docs_of (ip : string) (coll : list (gmap string value)) : list (gmap string value) :=
  filter (fun d => d !! "ip" = Some (VStr ip)) coll.

(** What an update of [main] makes of a document that matches. *)
Definition refreshed (current_time : Z) (ip : string) (d : gmap string value)
  : gmap string value :=
  set_fields (set (upsert_ip current_time ip)) d.

(** No address has two documents. *)
Definition ips_unique (coll : list (gmap string value)) : Prop :=
  forall ip, length (docs_of ip coll) <= 1.

(** [d'] is [d] but for the time it was last seen. *)
Definition kept (d d' : gmap string value) : Prop :=
  forall key, key <> "last_seen" -> d' !! key = d !! key.

(** Every document of [coll] is still in [coll'], at its place, changed at
    most in the time it was last seen. *)
Definition all_kept (coll coll' : list (gmap string value)) : Prop :=
  Forall2 kept coll (take (length coll) coll').

(** The server applies a batch in full, in an order of its choosing; of a
    batch that fails it has applied some of the operations. *)
Definition well_formed_server (srv : server) : Prop :=
  forall ops, batch_order srv ops ≡ₚ ops /\ applied_before_failure srv ops ⊆+ ops.


(** The list of a result of [extract_ips_from_file] that [main] writes to a
    collection. *)
Definition ips_for (target : collection_name) (result : list string * list string)
  : list string :=
  match target with PrivateColl => result.1 | PublicColl => result.2 end.


(** The events of [k] failed attempts, each followed by a sleep. *)
Definition retries (k : nat) (retry_delay : Z) : list event :=
  flat_map (fun i => [EConnect i; ESleep retry_delay]) (seq 0 k).

(** The events of the creation of the indexes. *)
Definition index_events (srv : server) : list event :=
  if create_index_raises srv PrivateColl then [ECreateIndex PrivateColl]
  else [ECreateIndex PrivateColl; ECreateIndex PublicColl].

(** The lines printed in a trace. *)
Definition printed (events : list event) : list string :=
  omap (fun e => match e with EPrint line => Some line | _ => None end) events.

(** The attempts to connect in a trace. *)
Definition attempted (events : list event) : list nat :=
  omap (fun e => match e with EConnect attempt => Some attempt | _ => None end) events.

(** The lengths of the sleeps in a trace. *)
Definition slept (events : list event) : list Z :=
  omap (fun e => match e with ESleep seconds => Some seconds | _ => None end) events.


(** ** The texts a pattern accepts *)

Section RegexSoundness.

Lemma run_sound {X} (r : regex) :
  forall prev s (k : option ascii -> bytes -> option X) x,
    run r prev s k = Some x ->
    exists t rest p, s = t ++ rest /\ shape r t /\ k p rest = Some x.
Proof.
  induction r as [ | c | lo hi | r1 IH1 r2 IH2 | r1 IH1 r2 IH2 | r1 IH1 | ];
    intros prev s k x Hrun; simpl in Hrun.
  - exists [], s, prev. done.
  - destruct s as [ | d s']; [ discriminate | ].
    destruct (Ascii.eqb c d) eqn:E; [ | discriminate ].
    apply Ascii.eqb_eq in E. subst d.
    exists [c], s', (Some c). done.
  - destruct s as [ | d s']; [ discriminate | ].
    destruct (Bytes.in_range lo hi d) eqn:E; [ | discriminate ].
    exists [d], s', (Some d). simpl. eauto.
  - apply IH1 in Hrun as (t1 & rest1 & p1 & -> & Ht1 & Hk1).
    apply IH2 in Hk1 as (t2 & rest2 & p2 & -> & Ht2 & Hk2).
    exists (t1 ++ t2), rest2, p2. rewrite <- app_assoc.
    split; [ reflexivity | ]. split; [ | assumption ].
    simpl. eauto.
  - destruct (run r1 prev s k) as [ y | ] eqn:E1.
    + injection Hrun as ->.
      apply IH1 in E1 as (t & rest & p & -> & Ht & Hk).
      exists t, rest, p. simpl. auto.
    + apply IH2 in Hrun as (t & rest & p & -> & Ht & Hk).
      exists t, rest, p. simpl. auto.
  - destruct (run r1 prev s k) as [ y | ] eqn:E1.
    + injection Hrun as ->.
      apply IH1 in E1 as (t & rest & p & -> & Ht & Hk).
      exists t, rest, p. simpl. auto.
    + exists [], s, prev. simpl. auto.
  - destruct (at_boundary prev s); [ | discriminate ].
    exists [], s, prev. done.
Qed.

Lemma match_here_sound r prev s len :
  match_here r prev s = Some len -> shape r (take len s).
Proof.
  unfold match_here. intros H.
  apply run_sound in H as (t & rest & p & -> & Ht & Hk).
  injection Hk as <-. rewrite length_app.
  replace (length t + length rest - length rest) with (length t) by lia.
  rewrite take_app_length. exact Ht.
Qed.

Lemma scan_sound r : forall s prev skip m,
  m ∈ scan r prev s skip -> shape r m.
Proof.
  induction s as [ | c s' IH]; intros prev skip m Hm; simpl in Hm.
  - inversion Hm.
  - destruct skip as [ | n].
    + destruct (match_here r prev (c :: s')) as [ len | ] eqn:E.
      * apply elem_of_cons in Hm as [ -> | Hm ].
        -- eapply match_here_sound; eassumption.
        -- eapply IH; eassumption.
      * eapply IH; eassumption.
    + eapply IH; eassumption.
Qed.

Lemma findall_sound r s m : m ∈ findall r s -> shape r m.
Proof. apply scan_sound. Qed.

End RegexSoundness.

(** ** The candidates of [IP_PATTERN] *)

Lemma in_range_bounds lo hi c :
  Bytes.in_range lo hi c = true ->
  nat_of_ascii lo <= nat_of_ascii c <= nat_of_ascii hi.
Proof.
  unfold Bytes.in_range. rewrite andb_true_iff, !Nat.leb_le. tauto.
Qed.

Lemma in_range_digit lo hi c :
  Bytes.in_range lo hi c = true ->
  48 <= nat_of_ascii lo -> nat_of_ascii hi <= 57 ->
  Bytes.is_digit c = true.
Proof.
  intros H Hlo Hhi. apply in_range_bounds in H.
  unfold Bytes.is_digit, Bytes.in_range.
  rewrite andb_true_iff, !Nat.leb_le.
  change (nat_of_ascii "0") with 48. change (nat_of_ascii "9") with 57. lia.
Qed.

Ltac char_codes :=
  change (nat_of_ascii "0") with 48 in *;
  change (nat_of_ascii "1") with 49 in *;
  change (nat_of_ascii "2") with 50 in *;
  change (nat_of_ascii "4") with 52 in *;
  change (nat_of_ascii "5") with 53 in *;
  change (nat_of_ascii "9") with 57 in *.

Lemma shape_OCTET o : shape OCTET o -> octet_text o.
Proof.
  unfold OCTET. simpl.
  intros H.
  repeat match goal with
         | H : _ \/ _ |- _ => destruct H
         | H : exists _, _ |- _ => destruct H
         | H : _ /\ _ |- _ => destruct H
         end; subst; simpl;
    repeat match goal with
           | H : Bytes.in_range ?lo ?hi ?c = true |- _ =>
               let Hd := fresh "Hd" in
               assert (Hd : Bytes.is_digit c = true)
                 by (apply (in_range_digit lo hi c H); char_codes; lia);
               apply in_range_bounds in H
           end;
    (split; [ simpl; lia | ]);
    (split; [ simpl; repeat match goal with H : Bytes.is_digit _ = true |- _ => rewrite H; clear H end; reflexivity | ]);
    unfold int10, digit_value; simpl fold_left; char_codes; lia.
Qed.

Lemma shape_IP_PATTERN t : shape IP_PATTERN t -> dotted_quad t.
Proof.
  unfold IP_PATTERN. cbn [shape Rep].
  intros (t0 & t1 & -> & -> & ta & tb & -> & Hrep & o4 & t5 & -> & Ho4 & ->).
  destruct Hrep as (x1 & y1 & -> & (o1 & d1 & -> & Ho1 & ->) & Hrep).
  destruct Hrep as (x2 & y2 & -> & (o2 & d2 & -> & Ho2 & ->) & Hrep).
  destruct Hrep as (x3 & y3 & -> & (o3 & d3 & -> & Ho3 & ->) & ->).
  exists o1, o2, o3, o4.
  split; [ | auto using shape_OCTET ].
  cbn [app]. rewrite !app_nil_r, <- !app_assoc. reflexivity.
Qed.

Lemma candidate_dotted_quad chunk c :
  c ∈ findall IP_PATTERN chunk -> dotted_quad c.
Proof. intros H. apply shape_IP_PATTERN. eapply findall_sound, H. Qed.

Lemma octet_text_ascii o : octet_text o -> forallb Bytes.is_ascii o = true.
Proof.
  intros (_ & Hd & _). revert Hd. rewrite !forallb_forall.
  intros Hd c Hc. specialize (Hd c Hc).
  apply in_range_bounds in Hd. char_codes.
  unfold Bytes.is_ascii. apply Nat.ltb_lt. lia.
Qed.

Lemma decode_ascii bs :
  forallb Bytes.is_ascii bs = true -> Bytes.decode bs = string_of_list_ascii bs.
Proof.
  unfold Bytes.decode. intros H. f_equal.
  induction bs as [ | c bs IH]; [ reflexivity | ].
  simpl in H. apply andb_true_iff in H as [Hc Hbs].
  rewrite filter_cons_True by (rewrite Hc; exact I).
  f_equal. auto.
Qed.

(** Decoding a candidate changes nothing: its bytes are digits and dots. *)
Lemma decode_candidate chunk c :
  c ∈ findall IP_PATTERN chunk -> Bytes.decode c = string_of_list_ascii c.
Proof.
  intros H. apply candidate_dotted_quad in H
    as (o1 & o2 & o3 & o4 & -> & H1 & H2 & H3 & H4).
  apply decode_ascii.
  repeat (rewrite forallb_app || cbn [forallb]).
  rewrite !octet_text_ascii by assumption. reflexivity.
Qed.

(** ** The order of [sorted] on strings *)

Section StringOrder.

Lemma ascii_compare_eq c1 c2 : Ascii.compare c1 c2 = Eq <-> c1 = c2.
Proof.
  split; [ apply Ascii.compare_eq_iff | ].
  intros ->. unfold Ascii.compare. apply N.compare_refl.
Qed.

Lemma ascii_compare_lt_trans c1 c2 c3 :
  Ascii.compare c1 c2 = Lt -> Ascii.compare c2 c3 = Lt -> Ascii.compare c1 c3 = Lt.
Proof.
  unfold Ascii.compare. rewrite !N.compare_lt_iff. apply N.lt_trans.
Qed.

Lemma string_compare_lt_trans : forall s1 s2 s3,
  String.compare s1 s2 = Lt -> String.compare s2 s3 = Lt -> String.compare s1 s3 = Lt.
Proof.
  induction s1 as [ | c1 s1 IH]; intros [ | c2 s2] [ | c3 s3]; simpl; try congruence.
  destruct (Ascii.compare c1 c2) eqn:E12; try discriminate;
    destruct (Ascii.compare c2 c3) eqn:E23; try discriminate.
  - apply ascii_compare_eq in E12, E23. subst.
    rewrite (proj2 (ascii_compare_eq c3 c3) eq_refl). apply IH.
  - apply ascii_compare_eq in E12. subst. rewrite E23. reflexivity.
  - apply ascii_compare_eq in E23. subst. rewrite E12. reflexivity.
  - rewrite (ascii_compare_lt_trans _ _ _ E12 E23). reflexivity.
Qed.

Lemma str_le_iff x y : str_le x y <-> String.compare x y = Lt \/ x = y.
Proof.
  unfold str_le, String.leb. split.
  - destruct (String.compare x y) eqn:E; try discriminate; auto.
    right. apply String.compare_eq_iff, E.
  - intros [ -> | -> ]; [ reflexivity | ].
    destruct (String.compare y y) eqn:E; try reflexivity.
    pose proof (String.compare_antisym y y) as Ha. rewrite E in Ha. discriminate.
Qed.

#[global] Instance str_le_total : Total str_le.
Proof. intros x y. apply String.leb_total. Qed.

#[global] Instance str_le_antisym : AntiSymm (=) str_le.
Proof. intros x y. apply String.leb_antisym. Qed.

#[global] Instance str_le_trans : Transitive str_le.
Proof.
  intros x y z. rewrite !str_le_iff.
  intros [ Hxy | -> ] [ Hyz | -> ]; eauto using string_compare_lt_trans.
Qed.

Lemma sorted_Sorted l : Sorted str_le (sorted l).
Proof. apply (Sorted_merge_sort str_le). Qed.

Lemma sorted_Permutation l : sorted l ≡ₚ l.
Proof. apply (merge_sort_Permutation str_le). Qed.

(** The result of [sorted] does not depend on the order of its input. *)
Lemma sorted_order_independent l1 l2 : l1 ≡ₚ l2 -> sorted l1 = sorted l2.
Proof.
  intros H. apply (Sorted_unique str_le); try apply sorted_Sorted.
  rewrite !sorted_Permutation. exact H.
Qed.

Lemma elem_of_sorted x l : x ∈ sorted l <-> x ∈ l.
Proof. rewrite sorted_Permutation. reflexivity. Qed.

End StringOrder.

(** ** [_process_chunk] *)

Section ProcessChunk.

Lemma classify_fold_spec (ips : gset string) :
  forall x,
    (x ∈ (set_fold classify_into (∅, ∅) ips).1 <-> x ∈ ips /\ validate_ip x = true) /\
    (x ∈ (set_fold classify_into (∅, ∅) ips).2 <-> x ∈ ips /\ validate_ip x = false).
Proof.
  apply (set_fold_ind_L
           (fun (r : gset string * gset string) (X : gset string) =>
              forall x, (x ∈ r.1 <-> x ∈ X /\ validate_ip x = true) /\
                        (x ∈ r.2 <-> x ∈ X /\ validate_ip x = false))).
  - intros x. cbn [fst snd]. rewrite elem_of_empty. tauto.
  - intros y X r Hy IH x. destruct (IH x) as [IH1 IH2].
    unfold classify_into. destruct (validate_ip y) eqn:Ey; cbn [fst snd].
    + rewrite !elem_of_union, elem_of_singleton, IH1, IH2.
      split; split; intuition (subst; congruence).
    + rewrite !elem_of_union, elem_of_singleton, IH1, IH2.
      split; split; intuition (subst; congruence).
Qed.

Lemma process_chunk_private chunk x :
  x ∈ (_process_chunk chunk).1 <-> x ∈ candidates chunk /\ validate_ip x = true.
Proof. apply classify_fold_spec. Qed.

Lemma process_chunk_public chunk x :
  x ∈ (_process_chunk chunk).2 <-> x ∈ candidates chunk /\ validate_ip x = false.
Proof. apply classify_fold_spec. Qed.

End ProcessChunk.

(** ** Reading the file in chunks *)

Section ReadLoop.

Variable w : world.
Variable chunk_size : Z.

Lemma file_read_pos rest :
  (0 < chunk_size)%Z ->
  file_read chunk_size rest
  = Ok (take (Z.to_nat chunk_size) rest, drop (Z.to_nat chunk_size) rest).
Proof.
  intros H. unfold file_read.
  rewrite (proj2 (Z.ltb_ge _ _)) by lia.
  rewrite (proj2 (Z.ltb_ge _ _)) by lia. reflexivity.
Qed.

(** A size below -1 is refused, whatever is left to read. *)
Lemma file_read_refused rest :
  (chunk_size < -1)%Z -> file_read chunk_size rest = Raise.
Proof. intros H. unfold file_read. rewrite (proj2 (Z.ltb_lt _ _) H). reflexivity. Qed.

Lemma file_read_Raise_inv rest :
  file_read chunk_size rest = Raise -> (chunk_size < -1)%Z.
Proof.
  unfold file_read. destruct (chunk_size <? -1)%Z eqn:E.
  - intros _. apply Z.ltb_lt, E.
  - destruct (chunk_size <? 0)%Z; discriminate.
Qed.

Lemma file_read_spec rest chunk rest' :
  file_read chunk_size rest = Ok (chunk, rest') ->
  rest = chunk ++ rest' /\ (chunk <> [] -> length rest' < length rest).
Proof.
  unfold file_read. destruct (chunk_size <? -1)%Z; [ discriminate | ].
  destruct (chunk_size <? 0)%Z.
  - intros [= <- <-]. rewrite app_nil_r. split; [ reflexivity | ].
    destruct rest; [ congruence | simpl; lia ].
  - intros [= <- <-]. rewrite take_drop. split; [ reflexivity | ].
    intros Hne. rewrite length_drop.
    destruct (Z.to_nat chunk_size) as [ | m ]; [ rewrite take_0 in Hne; congruence | ].
    destruct rest; [ simpl in Hne; congruence | simpl; lia ].
Qed.

Lemma file_read_nil : (-1 <= chunk_size)%Z -> file_read chunk_size [] = Ok ([], []).
Proof.
  intros H. unfold file_read. rewrite (proj2 (Z.ltb_ge _ _)) by lia.
  destruct (chunk_size <? 0)%Z; rewrite ?take_nil, ?drop_nil; reflexivity.
Qed.

Lemma read_loop_unfold fuel k rest :
  read_loop w chunk_size fuel k rest =
  if read_raises w k then Raise
  else
    match file_read chunk_size rest with
    | Raise => Raise
    | Ok (chunk, rest') =>
        match chunk with
        | [] => Ok []
        | _ :: _ =>
            match fuel with
            | O => Ok [chunk]
            | S fuel' =>
                chunks ← read_loop w chunk_size fuel' (S k) rest'; mret (chunk :: chunks)
            end
        end
    end.
Proof. destruct fuel; reflexivity. Qed.

Lemma chunks_of_unfold fuel rest :
  chunks_of chunk_size fuel rest =
  match file_read chunk_size rest with
  | Raise => []
  | Ok (chunk, rest') =>
      match chunk with
      | [] => []
      | _ :: _ =>
          match fuel with
          | O => [chunk]
          | S fuel' => chunk :: chunks_of chunk_size fuel' rest'
          end
      end
  end.
Proof. destruct fuel; reflexivity. Qed.

(** A size that [read] refuses ends the loop at its first call. *)
Lemma read_loop_refused fuel k rest :
  (chunk_size < -1)%Z -> read_loop w chunk_size fuel k rest = Raise.
Proof.
  intros H. rewrite read_loop_unfold, file_read_refused by exact H.
  destruct (read_raises w k); reflexivity.
Qed.

Lemma chunks_of_refused fuel rest :
  (chunk_size < -1)%Z -> chunks_of chunk_size fuel rest = [].
Proof. intros H. rewrite chunks_of_unfold, file_read_refused by exact H. reflexivity. Qed.

(** Any fuel that covers the bytes left gives the same run. *)
Lemma read_loop_fuel : forall fuel fuel' k rest,
  length rest <= fuel -> length rest <= fuel' ->
  read_loop w chunk_size fuel k rest = read_loop w chunk_size fuel' k rest.
Proof.
  induction fuel as [ | fuel IH]; intros fuel' k rest Hf Hf';
    rewrite (read_loop_unfold _ k rest), (read_loop_unfold fuel' k rest);
    destruct (read_raises w k); try reflexivity;
    (destruct (file_read chunk_size rest) as [ [chunk rest'] | ] eqn:E;
       [ | reflexivity ]);
    apply file_read_spec in E as [-> Hlt];
    (destruct chunk as [ | c chunk ]; [ reflexivity | ]);
    specialize (Hlt ltac:(discriminate));
    rewrite length_app in *; simpl in *; try lia.
  destruct fuel' as [ | fuel']; [ lia | ].
  rewrite (IH fuel' (S k) rest') by lia. reflexivity.
Qed.

Lemma read_loop_cases : forall fuel k rest,
  read_loop w chunk_size fuel k rest = Raise \/
  read_loop w chunk_size fuel k rest = Ok (chunks_of chunk_size fuel rest).
Proof.
  induction fuel as [ | fuel IH]; intros k rest; simpl;
    (destruct (read_raises w k); [ left; reflexivity | ]);
    (destruct (file_read chunk_size rest) as [ [chunk rest'] | ];
       [ | left; reflexivity ]);
    destruct chunk as [ | c chunk ]; auto.
  destruct (IH (S k) rest') as [ -> | -> ]; auto.
Qed.

Lemma read_loop_ok : forall fuel k rest,
  (-1 <= chunk_size)%Z ->
  (forall j, read_raises w j = false) ->
  read_loop w chunk_size fuel k rest = Ok (chunks_of chunk_size fuel rest).
Proof.
  intros fuel k rest Hsize Hno. revert k rest.
  induction fuel as [ | fuel IH]; intros k rest; simpl; rewrite Hno;
    (destruct (file_read chunk_size rest) as [ [chunk rest'] | ] eqn:E;
       [ | apply file_read_Raise_inv in E; lia ]);
    destruct chunk as [ | c chunk ]; auto.
  rewrite IH. reflexivity.
Qed.


Lemma chunks_of_nil fuel : chunks_of chunk_size fuel [] = [].
Proof.
  rewrite chunks_of_unfold.
  destruct (file_read chunk_size []) as [ [chunk rest'] | ] eqn:E; [ | reflexivity ].
  apply file_read_spec in E as [E _].
  symmetry in E. apply app_eq_nil in E as [-> ->]. reflexivity.
Qed.

Lemma chunks_of_concat : forall fuel rest,
  chunk_size <> 0%Z -> (-1 <= chunk_size)%Z -> length rest <= fuel ->
  concat (chunks_of chunk_size fuel rest) = rest.
Proof.
  intros fuel rest Hnz Hsize. revert rest.
  induction fuel as [ | fuel IH]; intros rest Hf.
  - destruct rest; [ | simpl in Hf; lia ]. rewrite chunks_of_nil. reflexivity.
  - simpl. destruct (file_read chunk_size rest) as [ [chunk rest'] | ] eqn:E;
      [ | apply file_read_Raise_inv in E; lia ].
    pose proof E as E'. apply file_read_spec in E' as [-> Hlt].
    destruct chunk as [ | c chunk ].
    + unfold file_read in E. rewrite (proj2 (Z.ltb_ge _ _) Hsize) in E.
      destruct (chunk_size <? 0)%Z eqn:Es.
      * simpl in E. injection E as ->. reflexivity.
      * simpl in E. injection E as Et Ed. apply Z.ltb_ge in Es.
        destruct (Z.to_nat chunk_size) as [ | m ] eqn:Em; [ lia | ].
        destruct rest'; [ reflexivity | ].
        simpl in Et. discriminate.
    + specialize (Hlt ltac:(discriminate)).
      simpl. rewrite IH by (rewrite length_app in *; simpl in *; lia). reflexivity.
Qed.

(** The chunks are consecutive slices of [chunk_size] bytes: the k-th one
    starts [k * chunk_size] bytes into the stream. *)
Lemma chunks_of_lookup : forall fuel rest k chunk,
  (0 < chunk_size)%Z -> length rest <= fuel ->
  chunks_of chunk_size fuel rest !! k = Some chunk ->
  chunk = take (Z.to_nat chunk_size) (drop (k * Z.to_nat chunk_size) rest).
Proof.
  intros fuel rest k chunk Hpos. revert rest k.
  induction fuel as [ | fuel IH]; intros rest k Hf Hk.
  - destruct rest; [ | simpl in Hf; lia ].
    simpl in Hk. rewrite file_read_pos in Hk by assumption.
    rewrite take_nil in Hk. discriminate.
  - simpl in Hk. rewrite file_read_pos in Hk by assumption.
    destruct (take (Z.to_nat chunk_size) rest) as [ | c t ] eqn:Et; [ discriminate | ].
    destruct k as [ | k ].
    + simpl in Hk. injection Hk as <-. simpl. symmetry. exact Et.
    + simpl in Hk. apply IH in Hk.
      * rewrite Hk, drop_drop. do 2 f_equal; lia.
      * rewrite length_drop.
        assert (length (take (Z.to_nat chunk_size) rest) <> 0) by (rewrite Et; discriminate).
        rewrite length_take in *. lia.
Qed.

Lemma chunks_of_length : forall fuel rest k,
  (0 < chunk_size)%Z -> length rest <= fuel ->
  k * Z.to_nat chunk_size < length rest ->
  k < length (chunks_of chunk_size fuel rest).
Proof.
  intros fuel rest k Hpos. revert rest k.
  induction fuel as [ | fuel IH]; intros rest k Hf Hk; [ lia | ].
  simpl. rewrite file_read_pos by assumption.
  destruct (take (Z.to_nat chunk_size) rest) as [ | c t ] eqn:Et.
  - apply (f_equal length) in Et. rewrite length_take in Et. simpl in Et. lia.
  - destruct k as [ | k ]; [ simpl; lia | ].
    simpl. apply -> Nat.succ_lt_mono. apply IH.
    + rewrite length_drop. apply (f_equal length) in Et.
      rewrite length_take in Et. simpl in Et. lia.
    + rewrite length_drop. lia.
Qed.

(** A chunk size that covers the file gives one chunk, the whole file. *)
Lemma chunks_of_whole fuel rest :
  rest <> [] -> (Z.of_nat (length rest) <= chunk_size)%Z -> length rest <= fuel ->
  chunks_of chunk_size fuel rest = [rest].
Proof.
  intros Hne Hn Hf.
  destruct fuel as [ | fuel]; [ destruct rest; [ congruence | simpl in Hf; lia ] | ].
  simpl. rewrite file_read_pos by (destruct rest; [ congruence | simpl in Hn; lia ]).
  rewrite take_ge, drop_ge by lia.
  destruct rest as [ | c rest ]; [ congruence | ].
  f_equal. apply chunks_of_nil.
Qed.

End ReadLoop.

(** ** Collecting the results of the tasks *)

Section Collect.

Lemma union_swap (a x y : gset string) : a ∪ x ∪ y = a ∪ y ∪ x.
Proof.
  rewrite <- !(assoc_L (∪)). f_equal. apply (comm_L (∪)).
Qed.

(** The order in which the results are merged does not matter. *)
Lemma collect_Permutation fs fs' :
  fs ≡ₚ fs' -> forall acc, collect fs acc = collect fs' acc.
Proof.
  induction 1 as [ | f fs fs' _ IH | f g fs | fs1 fs2 fs3 _ IH1 _ IH2 ]; intros acc.
  - reflexivity.
  - destruct f as [ r | ]; simpl; [ apply IH | reflexivity ].
  - destruct f as [ r | ], g as [ r' | ]; simpl; try reflexivity.
    rewrite (union_swap acc.1), (union_swap acc.2). reflexivity.
  - rewrite IH1. apply IH2.
Qed.


Lemma collect_Ok fs : forall acc,
  Raise ∉ fs -> exists r, collect fs acc = Ok r.
Proof.
  induction fs as [ | f fs IH ]; intros acc Hno.
  - eexists. reflexivity.
  - destruct f as [ r | ]; simpl.
    + apply IH. intros Hin. apply Hno. right. exact Hin.
    + exfalso. apply Hno. left.
Qed.

Lemma collect_elem fs : forall acc res,
  collect fs acc = Ok res ->
  forall x,
    (x ∈ res.1 <-> x ∈ acc.1 \/ exists r, Ok r ∈ fs /\ x ∈ r.1) /\
    (x ∈ res.2 <-> x ∈ acc.2 \/ exists r, Ok r ∈ fs /\ x ∈ r.2).
Proof.
  induction fs as [ | f fs IH ]; intros acc res Hc x.
  - simpl in Hc. injection Hc as <-.
    split; (split; [ auto | ]); intros [ H | (r & Hr & _) ]; auto; inversion Hr.
  - destruct f as [ r | ]; simpl in Hc; [ | discriminate ].
    destruct (IH _ _ Hc x) as [H1 H2]. cbn [fst snd] in H1, H2.
    rewrite H1, H2, !elem_of_union.
    split; split.
    + intros [ [ H | H ] | (r' & Hr' & Hx) ]; eauto.
      * right. exists r. split; [ left | exact H ].
      * right. exists r'. split; [ right; exact Hr' | exact Hx ].
    + intros [ H | (r' & Hr' & Hx) ]; auto.
      apply elem_of_cons in Hr' as [ [= ->] | Hr' ]; eauto.
    + intros [ [ H | H ] | (r' & Hr' & Hx) ]; eauto.
      * right. exists r. split; [ left | exact H ].
      * right. exists r'. split; [ right; exact Hr' | exact Hx ].
    + intros [ H | (r' & Hr' & Hx) ]; auto.
      apply elem_of_cons in Hr' as [ [= ->] | Hr' ]; eauto.
Qed.

End Collect.

(** ** [extract_ips_from_file] *)

Section Extraction.

Lemma plain_file_well_formed bs : well_formed (plain_file bs).
Proof. split; intros; reflexivity. Qed.

Lemma plain_file_fault_free bs : fault_free (plain_file bs).
Proof. repeat split. Qed.

Lemma read_loop_ext w1 w2 chunk_size :
  (forall k, read_raises w1 k = read_raises w2 k) ->
  forall fuel k rest,
    read_loop w1 chunk_size fuel k rest = read_loop w2 chunk_size fuel k rest.
Proof.
  intros Hr. induction fuel as [ | fuel IH ]; intros k rest; simpl; rewrite Hr;
    [ reflexivity | ].
  destruct (read_raises w2 k); [ reflexivity | ].
  destruct (file_read chunk_size rest) as [ [chunk rest'] | ]; [ | reflexivity ].
  destruct chunk; [ reflexivity | ]. rewrite IH. reflexivity.
Qed.

Lemma submit_ext w1 w2 chunks :
  (forall k, result_raises w1 k = result_raises w2 k) ->
  imap (submit w1) chunks = imap (submit w2) chunks.
Proof.
  intros Hr. apply imap_ext. intros i chunk _. unfold submit. rewrite Hr. reflexivity.
Qed.

(** With a well-formed runtime the tasks may be collected in the order of
    submission. *)
Lemma try_block_submission_order w chunk_size :
  well_formed w ->
  try_block w chunk_size =
  if open_raises w then Raise
  else chunks ← read_loop w chunk_size (length (content w)) 0 (content w);
       collect (imap (submit w) chunks) (∅, ∅).
Proof.
  intros [Hperm _]. unfold try_block.
  destruct (open_raises w); [ reflexivity | ].
  destruct (read_loop w chunk_size (length (content w)) 0 (content w)); [ | reflexivity ].
  simpl. apply collect_Permutation, Hperm.
Qed.

Lemma try_block_ext w1 w2 chunk_size :
  well_formed w1 -> well_formed w2 -> same_input w1 w2 ->
  try_block w1 chunk_size = try_block w2 chunk_size.
Proof.
  intros Hw1 Hw2 (_ & Hc & Ho & Hr & Ht).
  rewrite !try_block_submission_order by assumption.
  rewrite Ho, Hc, (read_loop_ext w1 w2 chunk_size Hr).
  destruct (open_raises w2); [ reflexivity | ].
  destruct (read_loop w2 chunk_size (length (content w2)) 0 (content w2)) as [ chunks | ];
    [ | reflexivity ].
  simpl. rewrite (submit_ext w1 w2 chunks Ht). reflexivity.
Qed.

Lemma sorted_list_of_set w s :
  well_formed w -> sorted (list_of_set w s) = sorted (elements s).
Proof. intros [_ H]. apply sorted_order_independent, H. Qed.

Lemma elem_of_sorted_list_of_set w s x :
  well_formed w -> x ∈ sorted (list_of_set w s) <-> x ∈ s.
Proof.
  intros [_ H]. rewrite elem_of_sorted, H. apply elem_of_elements.
Qed.

Lemma extract_ext w1 w2 chunk_size :
  well_formed w1 -> well_formed w2 -> same_input w1 w2 ->
  extract_ips_from_file w1 chunk_size = extract_ips_from_file w2 chunk_size.
Proof.
  intros Hw1 Hw2 Hs. unfold extract_ips_from_file.
  rewrite (try_block_ext w1 w2 chunk_size Hw1 Hw2 Hs).
  destruct Hs as (-> & -> & _).
  destruct (negb (is_file w2) || (length (content w2) =? 0)%nat); [ reflexivity | ].
  destruct (try_block w2 chunk_size) as [ [P Q] | ]; [ | reflexivity ].
  rewrite !(sorted_list_of_set w1), !(sorted_list_of_set w2) by assumption.
  reflexivity.
Qed.

(** A run without failures on a readable file is the run on [plain_file]. *)
Lemma extract_plain w chunk_size :
  well_formed w -> fault_free w -> is_file w = true ->
  extract_ips_from_file w chunk_size
  = extract_ips_from_file (plain_file (content w)) chunk_size.
Proof.
  intros Hw (Ho & Hr & Ht) Hf. apply extract_ext.
  - exact Hw.
  - apply plain_file_well_formed.
  - repeat split; simpl; auto.
Qed.

Lemma extract_never_raises w chunk_size :
  exists result, extract_ips_from_file w chunk_size = Ok result.
Proof.
  unfold extract_ips_from_file.
  destruct (negb (is_file w) || (length (content w) =? 0)%nat); [ eauto | ].
  destruct (try_block w chunk_size) as [ [P Q] | ]; eauto.
Qed.

Lemma extract_try_block_Raise w chunk_size :
  try_block w chunk_size = Raise ->
  extract_ips_from_file w chunk_size = Ok ([], []).
Proof.
  intros H. unfold extract_ips_from_file. rewrite H.
  destruct (negb (is_file w) || (length (content w) =? 0)%nat); reflexivity.
Qed.

Lemma elem_of_submit w chunks r :
  Ok r ∈ imap (submit w) chunks ->
  exists chunk, chunk ∈ chunks /\ r = _process_chunk chunk.
Proof.
  intros H. apply elem_of_lookup_imap in H as (i & chunk & Hs & Hi).
  exists chunk. split; [ eapply list_elem_of_lookup_2, Hi | ].
  unfold submit in Hs. destruct (result_raises w i); congruence.
Qed.

(** Whatever a run returns was found inside one of the chunks, and was
    put in the list that [validate_ip] chooses. *)
Lemma extract_sound w chunk_size pr pu :
  well_formed w ->
  extract_ips_from_file w chunk_size = Ok (pr, pu) ->
  forall x,
    (x ∈ pr -> exists chunk, chunk ∈ file_chunks w chunk_size /\
                             x ∈ (_process_chunk chunk).1) /\
    (x ∈ pu -> exists chunk, chunk ∈ file_chunks w chunk_size /\
                             x ∈ (_process_chunk chunk).2).
Proof.
  intros Hw He x. unfold extract_ips_from_file in He.
  assert (Hnil : forall y : string, y ∈ @nil string -> False) by (intros y Hy; inversion Hy).
  destruct (negb (is_file w) || (length (content w) =? 0)%nat);
    [ injection He as <- <-; split; intros H; destruct (Hnil _ H) | ].
  rewrite try_block_submission_order in He by assumption.
  destruct (open_raises w);
    [ injection He as <- <-; split; intros H; destruct (Hnil _ H) | ].
  destruct (read_loop_cases w chunk_size (length (content w)) 0 (content w)) as [ E | E ];
    rewrite E in He; simpl in He;
    [ injection He as <- <-; split; intros H; destruct (Hnil _ H) | ].
  fold (file_chunks w chunk_size) in He.
  destruct (collect (imap (submit w) (file_chunks w chunk_size)) (∅, ∅))
    as [ [P Q] | ] eqn:Ec;
    [ | injection He as <- <-; split; intros H; destruct (Hnil _ H) ].
  injection He as <- <-.
  destruct (collect_elem _ _ _ Ec x) as [H1 H2]. cbn [fst snd] in H1, H2.
  rewrite !elem_of_sorted_list_of_set, H1, H2, !elem_of_empty by assumption.
  split; intros [ [] | (r & Hr & Hx) ];
    apply elem_of_submit in Hr as (chunk & Hin & ->); eauto.
Qed.

(** Without failures everything found inside a chunk is returned. *)
Lemma extract_complete w chunk_size :
  well_formed w -> fault_free w -> is_file w = true -> content w <> [] ->
  exists pr pu,
    extract_ips_from_file w chunk_size = Ok (pr, pu) /\
    forall x,
      (x ∈ pr <-> exists chunk, chunk ∈ file_chunks w chunk_size /\
                                x ∈ (_process_chunk chunk).1) /\
      (x ∈ pu <-> exists chunk, chunk ∈ file_chunks w chunk_size /\
                                x ∈ (_process_chunk chunk).2).
Proof.
  intros Hw (Ho & Hr & Ht) Hf Hne.
  destruct (extract_never_raises w chunk_size) as ([pr pu] & He).
  exists pr, pu. split; [ exact He | ].
  intros x. destruct (extract_sound w chunk_size pr pu Hw He x) as [S1 S2].
  destruct (Z.lt_ge_cases chunk_size (-1)) as [ Hsize | Hsize ].
  { split; (split; [ assumption | ]); intros (chunk & Hin & _);
      unfold file_chunks in Hin; rewrite chunks_of_refused in Hin by exact Hsize;
      inversion Hin. }
  unfold extract_ips_from_file in He. rewrite Hf in He.
  destruct (content w) as [ | c0 cs ] eqn:Ec; [ congruence | ].
  cbn [negb orb length Nat.eqb] in He. rewrite <- Ec in *.
  rewrite try_block_submission_order, Ho, read_loop_ok in He by assumption.
  simpl in He. fold (file_chunks w chunk_size) in He.
  destruct (collect (imap (submit w) (file_chunks w chunk_size)) (∅, ∅))
    as [ [P Q] | ] eqn:Ecol.
  - injection He as <- <-.
    destruct (collect_elem _ _ _ Ecol x) as [H1 H2]. cbn [fst snd] in H1, H2.
    split; (split; [ assumption | ]); intros (chunk & Hin & Hx);
      rewrite elem_of_sorted_list_of_set by assumption;
      [ apply H1 | apply H2 ]; right; exists (_process_chunk chunk);
      (split; [ | exact Hx ]);
      apply list_elem_of_lookup_1 in Hin as (i & Hi);
      apply elem_of_lookup_imap; exists i, chunk;
      (split; [ | exact Hi ]); unfold submit; rewrite Ht; reflexivity.
  - exfalso.
    destruct (collect_Ok (imap (submit w) (file_chunks w chunk_size)) (∅, ∅)) as (r & Hr').
    + intros Hin. apply elem_of_lookup_imap in Hin as (i & chunk & Hs & _).
      unfold submit in Hs. rewrite Ht in Hs. discriminate.
    + congruence.
Qed.

End Extraction.

(** ** Failures and whole-file chunks *)

Section Failures.

Lemma read_loop_nil w chunk_size fuel k :
  (-1 <= chunk_size)%Z ->
  read_loop w chunk_size fuel k [] = if read_raises w k then Raise else Ok [].
Proof. intros H. rewrite read_loop_unfold, file_read_nil by exact H. reflexivity. Qed.

Lemma read_loop_whole w chunk_size fuel k rest :
  rest <> [] -> (Z.of_nat (length rest) <= chunk_size)%Z -> length rest <= fuel ->
  read_loop w chunk_size fuel k rest =
  if read_raises w k then Raise
  else if read_raises w (S k) then Raise else Ok [rest].
Proof.
  intros Hne Hn Hf. rewrite read_loop_unfold.
  destruct (read_raises w k); [ reflexivity | ].
  rewrite file_read_pos by (destruct rest; [ congruence | simpl in Hn; lia ]).
  rewrite take_ge, drop_ge by lia.
  destruct rest as [ | c rest ]; [ congruence | ].
  destruct fuel as [ | fuel ]; [ simpl in Hf; lia | ].
  rewrite read_loop_nil by lia.
  destruct (read_raises w (S k)); reflexivity.
Qed.

Lemma try_block_whole w n m :
  (Z.of_nat (length (content w)) <= n)%Z ->
  (Z.of_nat (length (content w)) <= m)%Z ->
  try_block w n = try_block w m.
Proof.
  intros Hn Hm. unfold try_block.
  destruct (open_raises w); [ reflexivity | ].
  destruct (content w) as [ | c cs ] eqn:Ec.
  - simpl in Hn, Hm. rewrite !read_loop_nil by lia. reflexivity.
  - rewrite <- Ec in *.
    assert (content w <> []) by (rewrite Ec; discriminate).
    rewrite !read_loop_whole by (assumption || lia). reflexivity.
Qed.

Lemma extract_whole w n m :
  (Z.of_nat (length (content w)) <= n)%Z ->
  (Z.of_nat (length (content w)) <= m)%Z ->
  extract_ips_from_file w n = extract_ips_from_file w m.
Proof.
  intros Hn Hm. unfold extract_ips_from_file.
  rewrite (try_block_whole w n m Hn Hm). reflexivity.
Qed.



Lemma reversed_file_well_formed bs : well_formed (reversed_file bs).
Proof. split; intros; simpl; apply reverse_Permutation. Qed.







End Failures.

(** ** The properties of the specification *)

Ltac not_in_literal :=
  let H := fresh in
  intros H;
  repeat (apply elem_of_cons in H as [ H | H ]; [ discriminate H | ]);
  inversion H.

(** C1, as stated, fails: with [chunk_size] 15 the second chunk starts where
    the first one ends, without any bytes of the first, and the token
    "10.0.0.5", which lies across the split, is in neither final list. *)
Lemma chunk_overlap_counterexample :
  read_loop split_token_file 15
            (length (content split_token_file)) 0 (content split_token_file)
  = Ok [b "xxxxxxxxxx 10.0"; b ".0.5 end"] /\
  occurs_as_token (b "10.0.0.5") (content split_token_file) = true /\
  extract_ips_from_file split_token_file 15 = Ok ([], []).
Proof. vm_compute. repeat split. Qed.

(** C1, amended: for a readable, non-empty file and a positive
    [chunk_size], when nothing fails, the chunks are consecutive slices of
    the stream without overlap (the k-th chunk is the [chunk_size] bytes that
    start [k * chunk_size] bytes into the stream, and the chunks concatenate
    to the stream), each chunk is matched on its own, and an address is in a
    final list exactly when it is a candidate inside one single chunk: in the
    private list when [validate_ip] accepts it, in the public list
    otherwise. *)
Theorem chunks_are_disjoint_slices (w : world) (chunk_size : Z) :
  well_formed w -> fault_free w -> is_file w = true -> content w <> [] ->
  (0 < chunk_size)%Z ->
  read_loop w chunk_size (length (content w)) 0 (content w)
  = Ok (file_chunks w chunk_size) /\
  concat (file_chunks w chunk_size) = content w /\
  (forall k chunk,
     file_chunks w chunk_size !! k = Some chunk ->
     chunk = take (Z.to_nat chunk_size) (drop (k * Z.to_nat chunk_size) (content w))) /\
  exists pr pu,
    extract_ips_from_file w chunk_size = Ok (pr, pu) /\
    forall x,
      (x ∈ pr <-> exists chunk, chunk ∈ file_chunks w chunk_size /\
                                x ∈ candidates chunk /\ validate_ip x = true) /\
      (x ∈ pu <-> exists chunk, chunk ∈ file_chunks w chunk_size /\
                                x ∈ candidates chunk /\ validate_ip x = false).
Proof.
  intros Hw Hff Hf Hne Hpos.
  split; [ apply read_loop_ok; [ lia | apply Hff ] | ].
  split; [ apply chunks_of_concat; lia | ].
  split; [ intros k chunk Hk; eapply chunks_of_lookup; eauto | ].
  destruct (extract_complete w chunk_size Hw Hff Hf Hne) as (pr & pu & He & Hx).
  exists pr, pu. split; [ exact He | ].
  intros x. destruct (Hx x) as [H1 H2]. rewrite H1, H2.
  split; split; intros (chunk & Hin & Hc); exists chunk; (split; [ exact Hin | ]);
    first [ apply process_chunk_private, Hc | apply process_chunk_public, Hc ].
Qed.

Lemma chunks_are_disjoint_slices_witness :
  (well_formed split_token_file /\ fault_free split_token_file /\
   is_file split_token_file = true /\ content split_token_file <> [] /\ (0 < 15)%Z) /\
  concat (file_chunks split_token_file 15) = content split_token_file.
Proof.
  set (w := split_token_file).
  assert (H : well_formed w /\ fault_free w /\ is_file w = true /\
              content w <> [] /\ (0 < 15)%Z).
  { split; [ apply plain_file_well_formed | ].
    split; [ apply plain_file_fault_free | ].
    split; [ reflexivity | ]. split; [ discriminate | reflexivity ]. }
  split; [ exact H | ].
  destruct H as (H1 & H2 & H3 & H4 & H5).
  exact (proj1 (proj2 (chunks_are_disjoint_slices w 15 H1 H2 H3 H4 H5))).
Defined.

(** C2, as stated, fails: a file of 73 bytes whose only address lies across
    byte 64 gives no address with [chunk_size] 64 and one address with
    [chunk_size] 1024 and with the whole file as one chunk. *)
Lemma chunk_size_invariance_counterexample :
  extract_ips_from_file split_at_64_file 64 = Ok ([], []) /\
  extract_ips_from_file split_at_64_file 1024 = Ok (["10.0.0.5"], []) /\
  extract_ips_from_file split_at_64_file
    (Z.of_nat (length (content split_at_64_file))) = Ok (["10.0.0.5"], []).
Proof. vm_compute. repeat split. Qed.

(** C2, amended: two runs that meet the same file and the same failures,
    none of them the failure of a [read] (a [read] fails, for one, when it
    asks for more bytes than the machine can count or allocate), with chunk
    sizes that both cover the whole file, give the same output pair; for a
    file of at most 64 bytes the sizes 64, 1024 and the file size agree. *)
Theorem chunk_size_invariance_one_chunk (w1 w2 : world) (n m : Z) :
  well_formed w1 -> well_formed w2 -> same_input w1 w2 ->
  (forall k, read_raises w1 k = false) ->
  (Z.of_nat (length (content w1)) <= n)%Z ->
  (Z.of_nat (length (content w1)) <= m)%Z ->
  extract_ips_from_file w1 n = extract_ips_from_file w2 m.
Proof.
  intros Hw1 Hw2 Hs _ Hn Hm.
  rewrite (extract_ext w1 w2 n Hw1 Hw2 Hs).
  destruct Hs as (_ & Hc & _). rewrite Hc in Hn, Hm.
  apply extract_whole; assumption.
Qed.

Lemma chunk_size_invariance_one_chunk_witness :
  (well_formed small_file /\ well_formed (reversed_file (content small_file)) /\
   same_input small_file (reversed_file (content small_file)) /\
   (forall k, read_raises small_file k = false) /\
   (Z.of_nat (length (content small_file)) <= 64)%Z /\
   (Z.of_nat (length (content small_file)) <= 1024)%Z) /\
  extract_ips_from_file small_file 64
  = extract_ips_from_file (reversed_file (content small_file)) 1024.
Proof.
  assert (H : well_formed small_file /\
              well_formed (reversed_file (content small_file)) /\
              same_input small_file (reversed_file (content small_file)) /\
              (forall k, read_raises small_file k = false) /\
              (Z.of_nat (length (content small_file)) <= 64)%Z /\
              (Z.of_nat (length (content small_file)) <= 1024)%Z).
  { split; [ apply plain_file_well_formed | ].
    split; [ apply reversed_file_well_formed | ].
    split; [ repeat split | ].
    split; [ reflexivity | split; vm_compute; discriminate ]. }
  split; [ exact H | ].
  destruct H as (H1 & H2 & H3 & H4 & H5 & H6).
  exact (chunk_size_invariance_one_chunk small_file (reversed_file (content small_file))
           64 1024 H1 H2 H3 H4 H5 H6).
Defined.

(** C3, as stated, fails: "0.0.0.0" and "224.0.0.1" fail [validate_ip] and
    are members of the public set of the chunk. *)
Lemma unclassifiable_candidate_counterexample :
  findall IP_PATTERN unspecified_multicast_chunk = [b "0.0.0.0"; b "224.0.0.1"] /\
  validate_ip "0.0.0.0" = false /\ validate_ip "224.0.0.1" = false /\
  "0.0.0.0" ∈ (_process_chunk unspecified_multicast_chunk).2 /\
  "224.0.0.1" ∈ (_process_chunk unspecified_multicast_chunk).2.
Proof. vm_compute. repeat split. Qed.

(** C3, amended: a candidate of a chunk that fails [validate_ip] (as the
    unspecified and the multicast addresses do) is never in the private set
    of the chunk and always in its public set. *)
Theorem invalid_candidate_is_public (chunk c : bytes) :
  c ∈ findall IP_PATTERN chunk ->
  validate_ip (Bytes.decode c) = false ->
  Bytes.decode c ∈ (_process_chunk chunk).2 /\
  Bytes.decode c ∉ (_process_chunk chunk).1.
Proof.
  intros Hc Hv.
  assert (Hin : Bytes.decode c ∈ candidates chunk).
  { unfold candidates. apply elem_of_list_to_set, list_elem_of_fmap.
    exists c. split; [ reflexivity | exact Hc ]. }
  split.
  - apply process_chunk_public. split; assumption.
  - intros Hp. apply process_chunk_private in Hp as [_ Hp]. congruence.
Qed.

Lemma invalid_candidate_is_public_witness :
  (b "0.0.0.0" ∈ findall IP_PATTERN unspecified_multicast_chunk /\
   validate_ip (Bytes.decode (b "0.0.0.0")) = false) /\
  Bytes.decode (b "0.0.0.0") ∈ (_process_chunk unspecified_multicast_chunk).2 /\
  Bytes.decode (b "0.0.0.0") ∉ (_process_chunk unspecified_multicast_chunk).1.
Proof.
  set (chunk := unspecified_multicast_chunk).
  assert (H : b "0.0.0.0" ∈ findall IP_PATTERN chunk /\
              validate_ip (Bytes.decode (b "0.0.0.0")) = false).
  { split; [ | reflexivity ].
    apply list_elem_of_In. vm_compute. left. reflexivity. }
  split; [ exact H | ].
  exact (invalid_candidate_is_public chunk (b "0.0.0.0") (proj1 H) (proj2 H)).
Defined.

(** C4: for the input "connect from 192.168.1.1 to 8.8.8.8 and 10.0.0.5;
    invalid 999.1.1.1 and 300.1.1.1" read as a single chunk, the extraction
    returns the private list ["10.0.0.5"; "192.168.1.1"], in lexicographic
    order, and the public list ["8.8.8.8"]; "999.1.1.1" and "300.1.1.1" are
    in neither list. *)
Theorem scenario_single_chunk (w : world) (chunk_size : Z) :
  well_formed w -> fault_free w -> is_file w = true ->
  content w = scenario_text ->
  (Z.of_nat (length (content w)) <= chunk_size)%Z ->
  exists private_ips public_ips,
    extract_ips_from_file w chunk_size = Ok (private_ips, public_ips) /\
    private_ips = ["10.0.0.5"; "192.168.1.1"] /\
    public_ips = ["8.8.8.8"] /\
    ("999.1.1.1" ∉ private_ips ++ public_ips) /\
    ("300.1.1.1" ∉ private_ips ++ public_ips).
Proof.
  intros Hw Hff Hf Hc Hn.
  exists ["10.0.0.5"; "192.168.1.1"], ["8.8.8.8"].
  split; [ | split; [ reflexivity | split; [ reflexivity | split; not_in_literal ] ] ].
  rewrite extract_plain by assumption.
  rewrite (extract_whole _ chunk_size 81) by (simpl; rewrite Hc in *; assumption || (vm_compute; discriminate)).
  rewrite Hc. vm_compute. reflexivity.
Qed.

Lemma scenario_single_chunk_witness :
  (well_formed (plain_file scenario_text) /\ fault_free (plain_file scenario_text) /\
   is_file (plain_file scenario_text) = true /\
   content (plain_file scenario_text) = scenario_text /\
   (Z.of_nat (length (content (plain_file scenario_text))) <= 1048576)%Z) /\
  exists private_ips public_ips,
    extract_ips_from_file (plain_file scenario_text) 1048576
    = Ok (private_ips, public_ips) /\
    private_ips = ["10.0.0.5"; "192.168.1.1"] /\
    public_ips = ["8.8.8.8"] /\
    ("999.1.1.1" ∉ private_ips ++ public_ips) /\
    ("300.1.1.1" ∉ private_ips ++ public_ips).
Proof.
  set (w := plain_file scenario_text).
  assert (H : well_formed w /\ fault_free w /\ is_file w = true /\
              content w = scenario_text /\
              (Z.of_nat (length (content w)) <= 1048576)%Z).
  { split; [ apply plain_file_well_formed | ].
    split; [ apply plain_file_fault_free | ].
    split; [ reflexivity | ].
    split; [ reflexivity | vm_compute; discriminate ]. }
  split; [ exact H | ].
  destruct H as (H1 & H2 & H3 & H4 & H5).
  exact (scenario_single_chunk w 1048576 H1 H2 H3 H4 H5).
Defined.




(** C6: the two lists that a run returns have no member in common. *)
Theorem private_public_disjoint (w : world) (chunk_size : Z)
        (private_ips public_ips : list string) :
  well_formed w ->
  extract_ips_from_file w chunk_size = Ok (private_ips, public_ips) ->
  forall x, x ∈ private_ips -> x ∉ public_ips.
Proof.
  intros Hw He x Hpr Hpu.
  destruct (extract_sound w chunk_size _ _ Hw He x) as [H1 H2].
  destruct (H1 Hpr) as (c1 & _ & Hc1). destruct (H2 Hpu) as (c2 & _ & Hc2).
  apply process_chunk_private in Hc1 as [_ Hc1].
  apply process_chunk_public in Hc2 as [_ Hc2].
  congruence.
Qed.

Lemma private_public_disjoint_witness :
  (well_formed (plain_file repeated_text) /\
   extract_ips_from_file (plain_file repeated_text) 20
   = Ok (["10.0.0.5"; "172.16.0.9"], ["8.8.8.8"])) /\
  forall x, x ∈ ["10.0.0.5"; "172.16.0.9"] -> x ∉ ["8.8.8.8"].
Proof.
  set (w := plain_file repeated_text).
  assert (H : well_formed w /\
              extract_ips_from_file w 20 = Ok (["10.0.0.5"; "172.16.0.9"], ["8.8.8.8"])).
  { split; [ apply plain_file_well_formed | vm_compute; reflexivity ]. }
  split; [ exact H | ].
  exact (private_public_disjoint w 20 _ _ (proj1 H) (proj2 H)).
Defined.

(** C7: two runs on the same input with the same [chunk_size] return the
    same pair of sorted lists, whatever the order in which the tasks complete
    and are merged and whatever the order in which the sets list their
    members. *)
Theorem extraction_deterministic (w1 w2 : world) (chunk_size : Z) :
  well_formed w1 -> well_formed w2 -> same_input w1 w2 ->
  extract_ips_from_file w1 chunk_size = extract_ips_from_file w2 chunk_size.
Proof. apply extract_ext. Qed.

Lemma extraction_deterministic_witness :
  (well_formed (plain_file repeated_text) /\ well_formed (reversed_file repeated_text) /\
   same_input (plain_file repeated_text) (reversed_file repeated_text)) /\
  extract_ips_from_file (plain_file repeated_text) 20
  = extract_ips_from_file (reversed_file repeated_text) 20.
Proof.
  set (bs := repeated_text).
  assert (H : well_formed (plain_file bs) /\ well_formed (reversed_file bs) /\
              same_input (plain_file bs) (reversed_file bs)).
  { split; [ apply plain_file_well_formed | ].
    split; [ apply reversed_file_well_formed | ].
    repeat split. }
  split; [ exact H | ].
  destruct H as (H1 & H2 & H3).
  exact (extraction_deterministic _ _ 20 H1 H2 H3).
Defined.

(** C8: a member of the private set of a chunk is classified private again,
    and a member of its public set is classified public again. *)
Theorem classification_round_trip (chunk : bytes) (x : string) :
  x ∈ (_process_chunk chunk).1 ∪ (_process_chunk chunk).2 ->
  (x ∈ (_process_chunk chunk).1 <-> classify x = Private) /\
  (x ∈ (_process_chunk chunk).2 <-> classify x = Public).
Proof.
  rewrite elem_of_union, process_chunk_private, process_chunk_public.
  unfold classify. intros Hx.
  destruct (validate_ip x); split; split; intros H;
    try discriminate H; try reflexivity; try tauto;
    destruct H as [_ H]; discriminate H.
Qed.

Lemma classification_round_trip_witness :
  "10.0.0.5" ∈ (_process_chunk repeated_text).1 ∪ (_process_chunk repeated_text).2 /\
  ("10.0.0.5" ∈ (_process_chunk repeated_text).1 <-> classify "10.0.0.5" = Private) /\
  ("10.0.0.5" ∈ (_process_chunk repeated_text).2 <-> classify "10.0.0.5" = Public).
Proof.
  set (chunk := repeated_text).
  assert (H : "10.0.0.5" ∈ (_process_chunk chunk).1 ∪ (_process_chunk chunk).2)
    by (vm_compute; reflexivity).
  split; [ exact H | ].
  exact (classification_round_trip chunk "10.0.0.5" H).
Defined.

(** C9, as stated, fails: the pattern accepts octets with leading zeros. *)
Lemma leading_zero_counterexample :
  findall IP_PATTERN leading_zero_chunk = [b "010.01.1.1"] /\
  canonical_quad (b "010.01.1.1") = false.
Proof. vm_compute. split; reflexivity. Qed.

(** C9, amended: every candidate of the pattern is four dot-separated octets
    of one to three decimal digits, each of value 0 to 255; leading zeros
    may occur. *)
Theorem candidate_is_dotted_quad (chunk c : bytes) :
  c ∈ findall IP_PATTERN chunk -> dotted_quad c.
Proof. apply candidate_dotted_quad. Qed.

Lemma candidate_is_dotted_quad_witness :
  b "010.01.1.1" ∈ findall IP_PATTERN leading_zero_chunk /\
  dotted_quad (b "010.01.1.1").
Proof.
  assert (H : b "010.01.1.1" ∈ findall IP_PATTERN leading_zero_chunk)
    by (apply list_elem_of_In; vm_compute; left; reflexivity).
  split; [ exact H | ].
  exact (candidate_is_dotted_quad _ _ H).
Defined.

(** C10: some stream and some [chunk_size] of at least 15 give a final list
    with an address that occurs nowhere in the stream as a token of its own:
    "192.168.1.100" cut after "192.168.1.1". *)
Theorem spurious_prefix_address :
  exists (w : world) (chunk_size : Z) (a : string)
         (private_ips public_ips : list string),
    well_formed w /\ fault_free w /\ is_file w = true /\
    (15 <= chunk_size)%Z /\
    extract_ips_from_file w chunk_size = Ok (private_ips, public_ips) /\
    a ∈ private_ips ++ public_ips /\
    occurs_as_token (list_ascii_of_string a) (content w) = false.
Proof.
  exists cut_address_file, 15%Z, "192.168.1.1",
         ["192.168.1.1"], [].
  split; [ apply plain_file_well_formed | ].
  split; [ apply plain_file_fault_free | ].
  split; [ reflexivity | ].
  split; [ vm_compute; discriminate | ].
  split; [ vm_compute; reflexivity | ].
  split; [ left | vm_compute; reflexivity ].
Qed.

(** * Further properties of the code *)

(** ** The private ranges *)

Section PrivateRanges.

Local Open Scope Z_scope.

Lemma digit_value_range c :
  Bytes.is_digit c = true -> 0 <= digit_value c <= 9.
Proof.
  intros H. apply in_range_bounds in H. char_codes. unfold digit_value. lia.
Qed.

Lemma int10_fold_nonneg cs : forall acc,
  0 <= acc -> forallb Bytes.is_digit cs = true ->
  0 <= fold_left (fun acc c => 10 * acc + digit_value c) cs acc.
Proof.
  induction cs as [ | c cs IH ]; intros acc Hacc Hd; simpl; [ exact Hacc | ].
  simpl in Hd. apply andb_true_iff in Hd as [Hc Hcs].
  apply IH; [ | exact Hcs ]. pose proof (digit_value_range c Hc). lia.
Qed.

Lemma parse_octet_range o v : parse_octet o = Some v -> 0 <= v <= 255.
Proof.
  unfold parse_octet. destruct (list_ascii_of_string o) as [ | c0 cs ]; [ discriminate | ].
  destruct (forallb Bytes.is_digit (c0 :: cs)) eqn:Ed; [ | discriminate ].
  cbn [negb].
  destruct (3 <? length (c0 :: cs))%nat; [ discriminate | ].
  destruct (negb (String.eqb o "0") && Ascii.eqb c0 "0"); [ discriminate | ].
  destruct (255 <? int10 (c0 :: cs)) eqn:E; [ discriminate | ].
  intros [= <-]. apply Z.ltb_ge in E. split; [ | exact E ].
  apply int10_fold_nonneg; [ lia | exact Ed ].
Qed.

Lemma lor_shift8 acc o :
  0 <= acc -> 0 <= o <= 255 -> Z.lor (Z.shiftl acc 8) o = acc * 256 + o.
Proof.
  intros Hacc Ho. rewrite Z.shiftl_mul_pow2 by lia.
  change (acc * 256 + o) with (acc * 2 ^ 8 + o).
  symmetry. apply Z.add_nocarry_lor. apply Z.bits_inj'. intros n Hn.
  rewrite Z.land_spec, Z.bits_0.
  destruct (Z.lt_ge_cases n 8) as [ Hlt | Hge ].
  - rewrite Z.mul_pow2_bits_low by assumption. reflexivity.
  - assert (Z.testbit o n = false) as ->; [ | apply andb_false_r ].
    destruct (Z.eq_dec o 0) as [ -> | Hne ]; [ apply Z.bits_0 | ].
    apply Z.bits_above_log2; [ lia | ].
    apply Z.log2_lt_pow2; [ lia | ].
    apply Z.lt_le_trans with (2 ^ 8); [ simpl; lia | ].
    apply Z.pow_le_mono_r; lia.
Qed.

Lemma quad_value a b c d :
  0 <= a <= 255 -> 0 <= b <= 255 -> 0 <= c <= 255 -> 0 <= d <= 255 ->
  quad a b c d = a * 16777216 + b * 65536 + c * 256 + d.
Proof.
  intros Ha Hb Hc Hd. unfold quad, from_bytes_big. cbn [fold_left].
  rewrite (lor_shift8 0 a) by lia.
  rewrite (lor_shift8 _ b) by lia.
  rewrite (lor_shift8 _ c) by lia.
  rewrite (lor_shift8 _ d) by lia.
  lia.
Qed.

Lemma land_high_mask ip j :
  0 <= ip < 2 ^ 32 -> 0 <= j ->
  Z.land ip (Z.ldiff (Z.ones 32) (Z.ones j)) = ip / 2 ^ j * 2 ^ j.
Proof.
  intros Hip Hj.
  assert (Z.land ip (Z.ldiff (Z.ones 32) (Z.ones j))
          = Z.ldiff (Z.land ip (Z.ones 32)) (Z.ones j)) as ->.
  { apply Z.bits_inj'. intros n Hn.
    rewrite Z.land_spec, !Z.ldiff_spec, Z.land_spec. apply andb_assoc. }
  rewrite Z.land_ones, Z.mod_small by lia.
  rewrite Z.ldiff_ones_r, Z.shiftr_div_pow2, Z.shiftl_mul_pow2 by lia.
  reflexivity.
Qed.

(** Membership in a network, on the octets of the address. *)
Lemma contains_quad addr len a b c d :
  0 <= a <= 255 -> 0 <= b <= 255 -> 0 <= c <= 255 -> 0 <= d <= 255 ->
  0 <= len <= 32 ->
  netmask {| network_address := addr; prefixlen := len |}
  = Z.ldiff (Z.ones 32) (Z.ones (32 - len)) ->
  contains {| network_address := addr; prefixlen := len |} (quad a b c d)
  = ((a * 16777216 + b * 65536 + c * 256 + d) / 2 ^ (32 - len) * 2 ^ (32 - len) =? addr).
Proof.
  intros Ha Hb Hc Hd Hlen Hmask. unfold contains. rewrite Hmask. cbn [network_address].
  rewrite quad_value by assumption.
  rewrite land_high_mask by (change (2 ^ 32) with 4294967296; lia).
  reflexivity.
Qed.

End PrivateRanges.

Section PrivateRanges2.

Local Open Scope Z_scope.

Lemma validate_quad a b c d :
  0 <= a <= 255 -> 0 <= b <= 255 -> 0 <= c <= 255 -> 0 <= d <= 255 ->
  negb (is_unspecified (quad a b c d) || is_reserved (quad a b c d)
        || is_multicast (quad a b c d))
  && existsb (fun network => contains network (quad a b c d)) PRIVATE_NETWORKS
  = in_rfc1918 a b.
Proof.
  intros Ha Hb Hc Hd.
  unfold is_reserved, is_multicast, is_unspecified, PRIVATE_NETWORKS, ip_network.
  cbn [existsb].
  rewrite !contains_quad by (assumption || lia || reflexivity).
  rewrite (quad_value a b c d) by assumption.
  change (quad 0 0 0 0) with 0. change (quad 10 0 0 0) with 167772160.
  change (quad 172 16 0 0) with 2886729728. change (quad 192 168 0 0) with 3232235520.
  change (quad 224 0 0 0) with 3758096384. change (quad 240 0 0 0) with 4026531840.
  change (2 ^ (32 - 4)) with 268435456. change (2 ^ (32 - 8)) with 16777216.
  change (2 ^ (32 - 12)) with 1048576. change (2 ^ (32 - 16)) with 65536.
  unfold in_rfc1918.
  rewrite orb_false_r. apply eq_iff_eq_true.
  rewrite !andb_true_iff, !orb_true_iff, !andb_true_iff, negb_true_iff, !orb_false_iff,
    !Z.eqb_eq, !Z.eqb_neq, !Z.leb_le.
  Z.div_mod_to_equations. lia.
Qed.

End PrivateRanges2.

Section ValidateIp.

(** [validate_ip] answers [True] exactly for the text of a private address:
    four canonical octets whose first two lie in 10/8, 172.16/12 or
    192.168/16. *)
Lemma validate_ip_spec ip :
  validate_ip ip = true <->
  exists a b c d,
    mapM parse_octet (split "." ip) = Some [a; b; c; d] /\ in_rfc1918 a b = true.
Proof.
  unfold validate_ip, ip_address, ip_int_from_string.
  destruct (String.eqb ip "") eqn:Eip.
  - apply String.eqb_eq in Eip. subst ip. cbn.
    split; [ discriminate | intros (a & b0 & c & d & H & _); discriminate H ].
  - destruct (mapM parse_octet (split "." ip)) as [ vs | ] eqn:Em.
    + pose proof (length_mapM _ _ _ Em) as Hlen.
      destruct (length (split "." ip) =? 4)%nat eqn:E4; cbn [negb].
      * apply Nat.eqb_eq in E4. rewrite E4 in Hlen.
        destruct vs as [ | a [ | b0 [ | c [ | d [ | ] ] ] ] ]; try discriminate Hlen.
        apply mapM_Some in Em.
        assert (Hr : Forall (fun v => 0 <= v <= 255)%Z [a; b0; c; d]).
        { clear -Em. induction Em as [ | o v os vs Ho _ IH ]; constructor; auto.
          eapply parse_octet_range, Ho. }
        apply Forall_cons in Hr as [Ha Hr]. apply Forall_cons in Hr as [Hb Hr].
        apply Forall_cons in Hr as [Hc Hr]. apply Forall_cons in Hr as [Hd _].
        cbn [fmap option_fmap option_map].
        change (from_bytes_big [a; b0; c; d]) with (quad a b0 c d).
        rewrite validate_quad by assumption.
        split; [ intros H; exists a, b0, c, d; auto | ].
        intros (a' & b' & c' & d' & [= <- <- <- <-] & H). exact H.
      * split; [ discriminate | ].
        intros (a & b0 & c & d & [= ->] & _). apply Nat.eqb_neq in E4.
        simpl in Hlen. congruence.
    + destruct (negb (length (split "." ip) =? 4)%nat); cbn;
        (split; [ discriminate | intros (a & b0 & c & d & H & _); discriminate H ]).
Qed.

End ValidateIp.

Section RegexPositions.

Lemma last_or_nil prev : last_or prev [] = prev.
Proof. reflexivity. Qed.

Lemma last_or_cons prev c t : last_or prev (c :: t) = last_or (Some c) t.
Proof.
  unfold last_or. destruct t as [ | d t ]; [ reflexivity | ].
  rewrite last_cons. destruct (last (d :: t)) eqn:E; [ reflexivity | ].
  apply last_None in E. discriminate E.
Qed.

Lemma last_or_app prev t1 t2 : last_or (last_or prev t1) t2 = last_or prev (t1 ++ t2).
Proof.
  revert prev. induction t1 as [ | c t1 IH ]; intros prev; [ reflexivity | ].
  simpl. rewrite !last_or_cons. apply IH.
Qed.

Lemma last_or_nonempty prev t : t <> [] -> last_or prev t = last t.
Proof.
  intros H. unfold last_or. destruct (last t) eqn:E; [ reflexivity | ].
  apply last_None in E. contradiction.
Qed.

Lemma last_or_None t : last_or None t = last t.
Proof. unfold last_or. destruct (last t); reflexivity. Qed.

Lemma accepts_shape r : forall prev t rest, accepts r prev t rest -> shape r t.
Proof.
  induction r as [ | c | lo hi | r1 IH1 r2 IH2 | r1 IH1 r2 IH2 | r1 IH1 | ];
    intros prev t rest H; simpl in *; auto.
  - destruct H as (t1 & t2 & -> & H1 & H2). exists t1, t2. eauto.
  - destruct H as [ H | H ]; eauto.
  - destruct H as [ H | H ]; eauto.
  - tauto.
Qed.

Lemma run_accepts {X} (r : regex) :
  forall prev s (k : option ascii -> bytes -> option X) x,
    run r prev s k = Some x ->
    exists t rest, s = t ++ rest /\ accepts r prev t rest /\
                   k (last_or prev t) rest = Some x.
Proof.
  induction r as [ | c | lo hi | r1 IH1 r2 IH2 | r1 IH1 r2 IH2 | r1 IH1 | ];
    intros prev s k x Hrun; simpl in Hrun.
  - exists [], s. done.
  - destruct s as [ | d s']; [ discriminate | ].
    destruct (Ascii.eqb c d) eqn:E; [ | discriminate ].
    apply Ascii.eqb_eq in E. subst d. exists [c], s'. done.
  - destruct s as [ | d s']; [ discriminate | ].
    destruct (Bytes.in_range lo hi d) eqn:E; [ | discriminate ].
    exists [d], s'. simpl. eauto.
  - apply IH1 in Hrun as (t1 & rest1 & -> & Ht1 & Hk1).
    apply IH2 in Hk1 as (t2 & rest2 & -> & Ht2 & Hk2).
    exists (t1 ++ t2), rest2. rewrite <- app_assoc, <- last_or_app.
    split; [ reflexivity | ]. split; [ | assumption ].
    simpl. eauto.
  - destruct (run r1 prev s k) as [ y | ] eqn:E1.
    + injection Hrun as ->.
      apply IH1 in E1 as (t & rest & -> & Ht & Hk). exists t, rest. simpl. auto.
    + apply IH2 in Hrun as (t & rest & -> & Ht & Hk). exists t, rest. simpl. auto.
  - destruct (run r1 prev s k) as [ y | ] eqn:E1.
    + injection Hrun as ->.
      apply IH1 in E1 as (t & rest & -> & Ht & Hk). exists t, rest. simpl. auto.
    + exists [], s. simpl. auto.
  - destruct (at_boundary prev s) eqn:E; [ | discriminate ].
    exists [], s. done.
Qed.

Lemma match_here_accepts r prev s len :
  match_here r prev s = Some len ->
  exists t rest, s = t ++ rest /\ len = length t /\ accepts r prev t rest.
Proof.
  unfold match_here. intros H.
  apply run_accepts in H as (t & rest & -> & Ht & Hk).
  injection Hk as <-. exists t, rest. rewrite length_app.
  split; [ reflexivity | ]. split; [ lia | exact Ht ].
Qed.

Lemma match_here_le r prev s len : match_here r prev s = Some len -> len <= length s.
Proof.
  intros H. apply match_here_accepts in H as (t & rest & -> & -> & _).
  rewrite length_app. lia.
Qed.

(** Where a match of the scan stands in the buffer. *)
Lemma scan_position r : forall s prev skip m,
  m ∈ scan r prev s skip ->
  exists pre post,
    s = pre ++ m ++ post /\ accepts r (last_or prev pre) m post.
Proof.
  induction s as [ | c s' IH ]; intros prev skip m Hm; simpl in Hm.
  - inversion Hm.
  - assert (Hrec : forall n, m ∈ scan r (Some c) s' n ->
              exists pre post, c :: s' = pre ++ m ++ post /\
                               accepts r (last_or prev pre) m post).
    { intros n Hn. apply IH in Hn as (pre & post & -> & Ha).
      exists (c :: pre), post. rewrite last_or_cons. auto. }
    destruct skip as [ | n ]; [ | eauto ].
    destruct (match_here r prev (c :: s')) as [ len | ] eqn:E; [ | eauto ].
    apply elem_of_cons in Hm as [ -> | Hm ]; [ | eauto ].
    apply match_here_accepts in E as (t & rest & Hs & -> & Ha).
    rewrite Hs, take_app_length. exists [], rest. auto.
Qed.

Lemma accepts_IP_PATTERN prev t rest :
  accepts IP_PATTERN prev t rest ->
  at_boundary prev (t ++ rest) = true /\ at_boundary (last_or prev t) rest = true.
Proof.
  unfold IP_PATTERN. cbn [accepts].
  intros (t0 & t1 & -> & (-> & Hb1) & ta & tb & -> & _ & o4 & t5 & -> & _ & -> & Hb2).
  cbn [app] in *. rewrite app_nil_r in *. rewrite !last_or_app in Hb2.
  split; assumption.
Qed.

Lemma dotted_quad_length t : dotted_quad t -> 7 <= length t <= 15.
Proof.
  intros (o1 & o2 & o3 & o4 & -> & (H1 & _) & (H2 & _) & (H3 & _) & (H4 & _)).
  repeat (rewrite length_app || cbn [length]). lia.
Qed.

Lemma token_scan_found tok : forall pre prev post,
  at_boundary (last_or prev pre) (tok ++ post) = true ->
  at_boundary (last tok) post = true ->
  token_scan tok prev (pre ++ tok ++ post) = true.
Proof.
  assert (Hpre : forall post, is_prefix tok (tok ++ post) = true).
  { intros post. induction tok as [ | c tok IH ]; [ reflexivity | ].
    simpl. rewrite IH, (proj2 (Ascii.eqb_eq c c) eq_refl). reflexivity. }
  induction pre as [ | c pre IH ]; intros prev post H1 H2.
  - cbn [app]. rewrite last_or_nil in H1.
    destruct (tok ++ post) as [ | d s ] eqn:E; simpl; rewrite <- E;
      rewrite Hpre, drop_app_length, H2; rewrite E, H1; reflexivity.
  - cbn [app]. simpl. rewrite last_or_cons in H1. rewrite IH by assumption.
    apply orb_true_r.
Qed.

Lemma candidate_delimited chunk m :
  m ∈ findall IP_PATTERN chunk -> occurs_as_token m chunk = true.
Proof.
  intros Hm. pose proof (candidate_dotted_quad _ _ Hm) as Hq.
  apply dotted_quad_length in Hq.
  apply scan_position in Hm as (pre & post & -> & Ha).
  apply accepts_IP_PATTERN in Ha as [H1 H2].
  rewrite last_or_nonempty in H2 by (destruct m; [ simpl in Hq; lia | discriminate ]).
  apply token_scan_found; assumption.
Qed.

Lemma scan_interleave r :
  (forall prev s, match_here r prev s <> Some 0) ->
  forall s prev skip,
    skip <= length s ->
    exists gaps tail,
      length gaps = length (scan r prev s skip) /\
      drop skip s = interleave gaps (scan r prev s skip) tail.
Proof.
  intros Hne. induction s as [ | c s' IH ]; intros prev skip Hskip.
  - exists [], []. rewrite drop_nil. auto.
  - destruct skip as [ | n ]; simpl.
    + destruct (match_here r prev (c :: s')) as [ len | ] eqn:E.
      * pose proof (match_here_le _ _ _ _ E) as Hle.
        destruct len as [ | len ]; [ destruct (Hne _ _ E) | ].
        simpl in Hle. cbn [Nat.sub]. rewrite Nat.sub_0_r.
        destruct (IH (Some c) len ltac:(lia)) as (gaps & tail & Hlen & Hd).
        exists ([] :: gaps), tail. split; [ simpl; lia | ].
        cbn [interleave app]. rewrite <- Hd.
        cbn [take app]. rewrite take_drop. reflexivity.
      * destruct (IH (Some c) 0 ltac:(lia)) as (gaps & tail & Hlen & Hd).
        rewrite drop_0 in Hd.
        destruct gaps as [ | g gaps ], (scan r (Some c) s' 0) as [ | m ms ];
          try discriminate Hlen.
        -- exists [], (c :: tail). simpl in *. split; [ reflexivity | congruence ].
        -- exists ((c :: g) :: gaps), tail. split; [ exact Hlen | ].
           simpl in *. congruence.
    + apply IH. simpl in Hskip. lia.
Qed.

Lemma IP_PATTERN_nonempty prev s : match_here IP_PATTERN prev s <> Some 0.
Proof.
  intros H. apply match_here_sound, shape_IP_PATTERN, dotted_quad_length in H.
  rewrite take_0 in H. simpl in H. lia.
Qed.

Lemma interleave_length gaps : forall ms tail,
  (forall m, m ∈ ms -> 7 <= length m) ->
  length gaps = length ms ->
  7 * length ms <= length (interleave gaps ms tail).
Proof.
  induction gaps as [ | g gaps IH ]; intros [ | m ms ] tail Hm Hlen;
    try discriminate Hlen; simpl; [ lia | ].
  rewrite !length_app.
  assert (7 <= length m) by (apply Hm; left).
  assert (7 * length ms <= length (interleave gaps ms tail)).
  { apply IH; [ intros m' Hm'; apply Hm; right; exact Hm' | simpl in Hlen; lia ]. }
  lia.
Qed.

End RegexPositions.

Section MoreExtraction.

Lemma process_chunk_partition chunk :
  (_process_chunk chunk).1 ∪ (_process_chunk chunk).2 = candidates chunk /\
  (_process_chunk chunk).1 ∩ (_process_chunk chunk).2 = ∅.
Proof.
  split; apply set_eq; intros x;
    rewrite ?elem_of_union, ?elem_of_intersection, process_chunk_private,
      process_chunk_public, ?elem_of_empty.
  - destruct (validate_ip x); intuition congruence.
  - intuition congruence.
Qed.

Lemma NoDup_sorted_list_of_set w s :
  well_formed w -> NoDup (sorted (list_of_set w s)).
Proof.
  intros [_ H]. rewrite sorted_Permutation, H. apply NoDup_elements.
Qed.

Lemma extract_sorted_NoDup w chunk_size pr pu :
  well_formed w ->
  extract_ips_from_file w chunk_size = Ok (pr, pu) ->
  (Sorted str_le pr /\ NoDup pr) /\ (Sorted str_le pu /\ NoDup pu).
Proof.
  intros Hw He. unfold extract_ips_from_file in He.
  assert (Hnil : (Sorted str_le [] /\ NoDup (@nil string)) /\
                 (Sorted str_le [] /\ NoDup (@nil string)))
    by (repeat split; constructor).
  destruct (negb (is_file w) || (length (content w) =? 0)%nat);
    [ injection He as <- <-; exact Hnil | ].
  destruct (try_block w chunk_size) as [ [P Q] | ];
    [ | injection He as <- <-; exact Hnil ].
  injection He as <- <-.
  repeat split; auto using sorted_Sorted, NoDup_sorted_list_of_set.
Qed.

(** With the size -1 the first [read] takes all the bytes and the second
    one meets the end of the file. *)
Lemma read_loop_minus_one w fuel k rest :
  rest <> [] -> 1 <= fuel ->
  read_loop w (-1) fuel k rest =
  if read_raises w k then Raise
  else if read_raises w (S k) then Raise else Ok [rest].
Proof.
  intros Hne Hf. rewrite read_loop_unfold.
  destruct (read_raises w k); [ reflexivity | ].
  change (file_read (-1) rest) with (Ok (rest, @nil ascii)).
  destruct rest as [ | c rest ]; [ congruence | ].
  destruct fuel as [ | fuel ]; [ lia | ].
  rewrite read_loop_nil by lia. destruct (read_raises w (S k)); reflexivity.
Qed.

Lemma extract_minus_one w :
  extract_ips_from_file w (-1)
  = extract_ips_from_file w (Z.of_nat (length (content w))).
Proof.
  unfold extract_ips_from_file, try_block.
  destruct (content w) as [ | c cs ] eqn:Ec.
  - rewrite orb_true_r. reflexivity.
  - rewrite <- Ec. assert (content w <> []) by (rewrite Ec; discriminate).
    rewrite read_loop_minus_one by (assumption || (rewrite Ec; simpl; lia)).
    rewrite read_loop_whole by (assumption || lia). reflexivity.
Qed.

(** A size below -1 makes the first [read] raise, which the [try] block
    turns into the empty pair. *)
Lemma extract_refused w chunk_size :
  (chunk_size < -1)%Z -> extract_ips_from_file w chunk_size = Ok ([], []).
Proof.
  intros Hn. apply extract_try_block_Raise. unfold try_block.
  rewrite read_loop_refused by exact Hn.
  destruct (open_raises w); reflexivity.
Qed.

Lemma extract_negative w chunk_size :
  (chunk_size < 0)%Z ->
  extract_ips_from_file w chunk_size
  = if (chunk_size =? -1)%Z
    then extract_ips_from_file w (Z.of_nat (length (content w)))
    else Ok ([], []).
Proof.
  intros Hn. destruct (Z.eqb_spec chunk_size (-1)) as [ -> | Hne ].
  - apply extract_minus_one.
  - apply extract_refused. lia.
Qed.

Lemma extract_zero w :
  well_formed w -> extract_ips_from_file w 0 = Ok ([], []).
Proof.
  intros Hw. unfold extract_ips_from_file.
  destruct (negb (is_file w) || (length (content w) =? 0)%nat); [ reflexivity | ].
  rewrite try_block_submission_order by assumption.
  destruct (open_raises w); [ reflexivity | ].
  rewrite read_loop_unfold. destruct (read_raises w 0); [ reflexivity | ].
  change (file_read 0 (content w)) with (Ok (take 0 (content w), drop 0 (content w))).
  rewrite take_0. simpl.
  destruct Hw as [_ Hl].
  assert (list_of_set w ∅ = []) as ->
    by (apply Permutation_nil_r; rewrite Hl, elements_empty; reflexivity).
  reflexivity.
Qed.

Lemma extract_one_chunk w chunk_size :
  well_formed w -> fault_free w -> is_file w = true -> content w <> [] ->
  (Z.of_nat (length (content w)) <= chunk_size)%Z ->
  extract_ips_from_file w chunk_size
  = Ok (sorted (elements (_process_chunk (content w)).1),
        sorted (elements (_process_chunk (content w)).2)).
Proof.
  intros Hw Hff Hf Hne Hn. rewrite extract_plain by assumption.
  unfold extract_ips_from_file, try_block. cbn [plain_file is_file content open_raises
    as_completed list_of_set]. 
  destruct (content w) as [ | c cs ] eqn:Ec; [ congruence | ].
  rewrite <- Ec in *. assert ((length (content w) =? 0)%nat = false) as ->
    by (rewrite Ec; reflexivity).
  cbn [negb orb].
  rewrite read_loop_whole by (assumption || lia). cbn.
  rewrite !(left_id_L ∅ (∪)). reflexivity.
Qed.

Lemma chunks_of_length_iff chunk_size : forall fuel rest k,
  (0 < chunk_size)%Z -> length rest <= fuel ->
  k < length (chunks_of chunk_size fuel rest) <-> k * Z.to_nat chunk_size < length rest.
Proof.
  intros fuel rest k Hpos. revert rest k.
  induction fuel as [ | fuel IH ]; intros rest k Hf.
  - destruct rest; [ | simpl in Hf; lia ]. rewrite chunks_of_nil. simpl. lia.
  - simpl. rewrite file_read_pos by assumption.
    destruct (take (Z.to_nat chunk_size) rest) as [ | c t ] eqn:Et.
    + apply (f_equal length) in Et. rewrite length_take in Et. simpl in *. lia.
    + apply (f_equal length) in Et. rewrite length_take in Et. simpl in Et.
      destruct k as [ | k ]; [ simpl; lia | ].
      cbn [length]. rewrite <- Nat.succ_lt_mono, IH by (rewrite length_drop; lia).
      rewrite length_drop. simpl. lia.
Qed.

Lemma chunks_of_count chunk_size fuel rest :
  (0 < chunk_size)%Z -> length rest <= fuel ->
  length (chunks_of chunk_size fuel rest)
  = (length rest + Z.to_nat chunk_size - 1) / Z.to_nat chunk_size.
Proof.
  intros Hpos Hf.
  set (q := length (chunks_of chunk_size fuel rest)).
  set (m := Z.to_nat chunk_size). assert (Hm : 0 < m) by (unfold m; lia).
  pose proof (chunks_of_length_iff chunk_size fuel rest q Hpos Hf) as Hq.
  pose proof (chunks_of_length_iff chunk_size fuel rest (q - 1) Hpos Hf) as Hq1.
  fold q m in Hq, Hq1.
  assert (Hup : length rest <= q * m) by lia.
  destruct (Nat.eq_dec q 0) as [ -> | Hq0 ].
  - symmetry. apply Nat.div_small. lia.
  - assert (Hlo : (q - 1) * m < length rest) by (apply Hq1; lia).
    apply (Nat.div_unique _ _ _ (length rest + m - 1 - m * q)); nia.
Qed.

Lemma chunks_of_sizes chunk_size fuel rest k chunk :
  (0 < chunk_size)%Z -> length rest <= fuel ->
  chunks_of chunk_size fuel rest !! k = Some chunk ->
  1 <= length chunk <= Z.to_nat chunk_size /\
  (S k < length (chunks_of chunk_size fuel rest) -> length chunk = Z.to_nat chunk_size).
Proof.
  intros Hpos Hf Hk.
  pose proof (lookup_lt_Some _ _ _ Hk) as Hlt.
  apply chunks_of_length_iff in Hlt; [ | assumption | assumption ].
  rewrite chunks_of_length_iff by assumption.
  apply chunks_of_lookup in Hk; [ | assumption | assumption ].
  subst chunk. rewrite length_take, length_drop. lia.
Qed.

Lemma extract_members_dotted_quad w chunk_size pr pu x :
  well_formed w ->
  extract_ips_from_file w chunk_size = Ok (pr, pu) ->
  x ∈ pr ++ pu ->
  exists c chunk, chunk ∈ file_chunks w chunk_size /\ c ∈ findall IP_PATTERN chunk /\
                  dotted_quad c /\ x = string_of_list_ascii c.
Proof.
  intros Hw He Hx.
  destruct (extract_sound w chunk_size pr pu Hw He x) as [H1 H2].
  assert (Hc : exists chunk, chunk ∈ file_chunks w chunk_size /\ x ∈ candidates chunk).
  { apply elem_of_app in Hx as [ Hx | Hx ].
    - destruct (H1 Hx) as (chunk & Hin & Hp).
      apply process_chunk_private in Hp as [Hp _]. eauto.
    - destruct (H2 Hx) as (chunk & Hin & Hp).
      apply process_chunk_public in Hp as [Hp _]. eauto. }
  destruct Hc as (chunk & Hin & Hc). unfold candidates in Hc.
  apply elem_of_list_to_set, list_elem_of_fmap in Hc as (c & -> & Hc).
  exists c, chunk. split; [ exact Hin | ]. split; [ exact Hc | ].
  split; [ eapply candidate_dotted_quad, Hc | eapply decode_candidate, Hc ].
Qed.

Lemma extract_private_members w chunk_size pr pu x :
  well_formed w ->
  extract_ips_from_file w chunk_size = Ok (pr, pu) ->
  x ∈ pr -> validate_ip x = true.
Proof.
  intros Hw He Hx.
  destruct (extract_sound w chunk_size pr pu Hw He x) as [H1 _].
  destruct (H1 Hx) as (chunk & _ & Hp).
  apply process_chunk_private in Hp as [_ Hp]. exact Hp.
Qed.

End MoreExtraction.

Section MatcherCompleteness.

Lemma run_complete {X} (r : regex) :
  forall prev t rest (k : option ascii -> bytes -> option X),
    accepts r prev t rest ->
    is_Some (k (last_or prev t) rest) ->
    is_Some (run r prev (t ++ rest) k).
Proof.
  induction r as [ | c | lo hi | r1 IH1 r2 IH2 | r1 IH1 r2 IH2 | r1 IH1 | ];
    intros prev t rest k Ha Hk; simpl in Ha.
  - subst t. exact Hk.
  - subst t. simpl. rewrite (proj2 (Ascii.eqb_eq c c) eq_refl). exact Hk.
  - destruct Ha as (d & -> & Hd). simpl. rewrite Hd. exact Hk.
  - destruct Ha as (t1 & t2 & -> & H1 & H2). rewrite <- app_assoc. simpl.
    apply IH1; [ exact H1 | ]. apply IH2; [ exact H2 | ].
    rewrite last_or_app. exact Hk.
  - simpl. destruct Ha as [ H1 | H2 ].
    + destruct (IH1 _ _ _ k H1 Hk) as [x ->]. eauto.
    + destruct (run r1 prev (t ++ rest) k); [ eauto | ]. apply IH2; assumption.
  - simpl. destruct Ha as [ H1 | -> ].
    + destruct (IH1 _ _ _ k H1 Hk) as [x ->]. eauto.
    + destruct (run r1 prev ([] ++ rest) k); [ eauto | ]. exact Hk.
  - destruct Ha as [-> Hb]. simpl. rewrite Hb. exact Hk.
Qed.

Lemma in_range_intro lo hi c :
  nat_of_ascii lo <= nat_of_ascii c <= nat_of_ascii hi -> Bytes.in_range lo hi c = true.
Proof.
  intros H. unfold Bytes.in_range. apply andb_true_iff. rewrite !Nat.leb_le. exact H.
Qed.

Lemma ascii_of_code c n : nat_of_ascii c = n -> c = ascii_of_nat n.
Proof. intros <-. symmetry. apply ascii_nat_embedding. Qed.

Lemma accepts_OCTET o prev rest : octet_text o -> accepts OCTET prev o rest.
Proof.
  intros (Hlen & Hd & Hv).
  destruct o as [ | d1 [ | d2 [ | d3 [ | d4 o ] ] ] ]; simpl in Hlen; try lia;
    simpl in Hd; repeat rewrite andb_true_iff in Hd.
  - (* one digit *)
    destruct Hd as [H1 _]. unfold OCTET. cbn [accepts].
    right. right. exists [], [d1]. repeat split; [ right; reflexivity | ].
    exists [d1], []. repeat split; [ exists d1; auto | right; reflexivity ].
  - (* two digits *)
    destruct Hd as (H1 & H2 & _). unfold OCTET. cbn [accepts].
    right. right. exists [], [d1; d2]. repeat split; [ right; reflexivity | ].
    exists [d1], [d2]. repeat split; [ exists d1; auto | left; exists d2; auto ].
  - (* three digits *)
    destruct Hd as (H1 & H2 & H3 & _).
    pose proof H1 as B1. pose proof H2 as B2. pose proof H3 as B3.
    apply in_range_bounds in B1, B2, B3.
    unfold int10, digit_value in Hv. cbn [fold_left] in Hv. char_codes.
    unfold OCTET. cbn [accepts].
    destruct (Nat.le_gt_cases (nat_of_ascii d1) 49) as [ L1 | G1 ].
    + right. right. exists [d1], [d2; d3]. repeat split.
      * left. exists d1. split; [ reflexivity | apply in_range_intro; char_codes; lia ].
      * exists [d2], [d3]. repeat split; [ exists d2; auto | left; exists d3; auto ].
    + assert (E1 : d1 = "2"%char) by (apply (ascii_of_code d1 50); lia).
      destruct (Nat.le_gt_cases (nat_of_ascii d2) 52) as [ L2 | G2 ].
      * right. left. exists [d1], [d2; d3]. repeat split; [ rewrite E1; reflexivity | ].
        exists [d2], [d3]. repeat split.
        -- exists d2. split; [ reflexivity | apply in_range_intro; char_codes; lia ].
        -- exists d3. auto.
      * assert (E2 : d2 = "5"%char) by (apply (ascii_of_code d2 53); lia).
        left. exists [d1], [d2; d3]. repeat split; [ rewrite E1; reflexivity | ].
        exists [d2], [d3]. repeat split; [ rewrite E2; reflexivity | ].
        exists d3. split; [ reflexivity | apply in_range_intro; char_codes; lia ].
Qed.

End MatcherCompleteness.

Section MatcherCompleteness2.

Lemma is_digit_word c : Bytes.is_digit c = true -> Bytes.is_word c = true.
Proof.
  intros H. unfold Bytes.is_word. rewrite H, orb_true_r. reflexivity.
Qed.

Lemma dot_not_digit : Bytes.is_digit "." = false.
Proof. reflexivity. Qed.

Lemma octet_text_last o : octet_text o -> exists c, last o = Some c /\ Bytes.is_digit c = true.
Proof.
  intros (Hlen & Hd & _).
  destruct (last o) as [ c | ] eqn:E.
  - exists c. split; [ reflexivity | ].
    apply last_Some in E as (o' & ->).
    rewrite forallb_app in Hd. apply andb_true_iff in Hd as [_ Hd].
    simpl in Hd. rewrite andb_true_r in Hd. exact Hd.
  - apply last_None in E. subst o. simpl in Hlen. lia.
Qed.

Lemma octet_text_head o : octet_text o -> exists c, head o = Some c /\ Bytes.is_digit c = true.
Proof.
  intros (Hlen & Hd & _). destruct o as [ | c o ]; [ simpl in Hlen; lia | ].
  exists c. simpl in Hd. apply andb_true_iff in Hd as [Hd _]. auto.
Qed.

Lemma dotted_quad_last t : dotted_quad t -> exists c, last t = Some c /\ Bytes.is_digit c = true.
Proof.
  intros (o1 & o2 & o3 & o4 & -> & _ & _ & _ & H4).
  destruct (octet_text_last o4 H4) as (c & Hl & Hc). exists c. split; [ | exact Hc ].
  apply last_Some in Hl as (o' & ->).
  apply last_Some. exists (o1 ++ "."%char :: o2 ++ "."%char :: o3 ++ "."%char :: o').
  repeat (rewrite <- app_assoc; cbn [app]). reflexivity.
Qed.

Lemma dotted_quad_head t : dotted_quad t -> exists c, head t = Some c /\ Bytes.is_digit c = true.
Proof.
  intros (o1 & o2 & o3 & o4 & -> & H1 & _).
  destruct (octet_text_head o1 H1) as (c & Hh & Hc). exists c. split; [ | exact Hc ].
  destruct o1; [ discriminate Hh | exact Hh ].
Qed.

Lemma dotted_quad_bytes t c :
  dotted_quad t -> c ∈ t -> Bytes.is_digit c = true \/ c = "."%char.
Proof.
  intros (o1 & o2 & o3 & o4 & -> & (_ & H1 & _) & (_ & H2 & _) & (_ & H3 & _) & (_ & H4 & _)) Hc.
  rewrite forallb_forall in H1, H2, H3, H4.
  repeat (apply elem_of_app in Hc as [ Hc | Hc ] || apply elem_of_cons in Hc as [ Hc | Hc ]);
    try (right; exact Hc); left;
    first [ apply H1, list_elem_of_In, Hc | apply H2, list_elem_of_In, Hc
          | apply H3, list_elem_of_In, Hc | apply H4, list_elem_of_In, Hc ].
Qed.

Lemma accepts_IP_PATTERN_intro prev t post :
  dotted_quad t ->
  at_boundary prev (t ++ post) = true ->
  at_boundary (last t) post = true ->
  accepts IP_PATTERN prev t post.
Proof.
  intros Hq Hb1 Hb2.
  assert (Hlast : forall p, last_or p t = last t).
  { intros p. apply last_or_nonempty.
    apply dotted_quad_length in Hq. destruct t; [ simpl in Hq; lia | discriminate ]. }
  destruct Hq as (o1 & o2 & o3 & o4 & Ht & H1 & H2 & H3 & H4).
  unfold IP_PATTERN. cbn [accepts Rep].
  exists [], t. split; [ reflexivity | ]. split; [ auto | ].
  exists ((o1 ++ ["."%char]) ++ (o2 ++ ["."%char]) ++ (o3 ++ ["."%char]) ++ []), (o4 ++ []).
  split; [ rewrite Ht; repeat (rewrite <- app_assoc; cbn [app]); rewrite !app_nil_r; reflexivity | ].
  split.
  - exists (o1 ++ ["."%char]), ((o2 ++ ["."%char]) ++ (o3 ++ ["."%char]) ++ []).
    split; [ reflexivity | ]. split.
    + exists o1, ["."%char]. auto using accepts_OCTET.
    + exists (o2 ++ ["."%char]), ((o3 ++ ["."%char]) ++ []).
      split; [ reflexivity | ]. split.
      * exists o2, ["."%char]. auto using accepts_OCTET.
      * exists (o3 ++ ["."%char]), []. split; [ reflexivity | ]. split; [ | reflexivity ].
        exists o3, ["."%char]. auto using accepts_OCTET.
  - exists o4, []. split; [ reflexivity | ]. split; [ apply accepts_OCTET, H4 | ].
    split; [ reflexivity | ].
    rewrite !last_or_app.
    match goal with |- at_boundary (last_or prev ?x) post = true => replace x with t end.
    + rewrite Hlast. exact Hb2.
    + rewrite Ht. cbn [app]. repeat (rewrite <- app_assoc; cbn [app]). reflexivity.
Qed.

Lemma digits_dot_inj o : forall o' x x',
  forallb Bytes.is_digit o = true -> forallb Bytes.is_digit o' = true ->
  o ++ "."%char :: x = o' ++ "."%char :: x' -> o = o' /\ x = x'.
Proof.
  induction o as [ | d o IH ]; intros [ | d' o' ] x x' Hd Hd' He; simpl in *.
  - injection He as ->. auto.
  - injection He as <- _. apply andb_true_iff in Hd' as [Hd' _]. discriminate Hd'.
  - injection He as -> _. apply andb_true_iff in Hd as [Hd _]. discriminate Hd.
  - injection He as -> He. apply andb_true_iff in Hd as [_ Hd].
    apply andb_true_iff in Hd' as [_ Hd'].
    destruct (IH _ _ _ Hd Hd' He) as [-> ->]. auto.
Qed.

Lemma digits_end_inj o : forall o' post post',
  forallb Bytes.is_digit o = true -> forallb Bytes.is_digit o' = true ->
  ended_after post -> ended_after post' ->
  o ++ post = o' ++ post' -> o = o' /\ post = post'.
Proof.
  unfold ended_after.
  induction o as [ | d o IH ]; intros [ | d' o' ] post post' Hd Hd' Hp Hp' He; simpl in *.
  - auto.
  - subst post. simpl in Hp. apply andb_true_iff in Hd' as [Hd' _].
    rewrite (is_digit_word _ Hd') in Hp. discriminate Hp.
  - subst post'. simpl in Hp'. apply andb_true_iff in Hd as [Hd _].
    rewrite (is_digit_word _ Hd) in Hp'. discriminate Hp'.
  - injection He as -> He. apply andb_true_iff in Hd as [_ Hd].
    apply andb_true_iff in Hd' as [_ Hd'].
    destruct (IH _ _ _ Hd Hd' Hp Hp' He) as [-> ->]. auto.
Qed.

Lemma dotted_quad_unique t t' post post' :
  dotted_quad t -> dotted_quad t' ->
  ended_after post -> ended_after post' ->
  t ++ post = t' ++ post' -> t = t'.
Proof.
  intros (o1 & o2 & o3 & o4 & -> & (_ & D1 & _) & (_ & D2 & _) & (_ & D3 & _) & (_ & D4 & _)).
  intros (p1 & p2 & p3 & p4 & -> & (_ & E1 & _) & (_ & E2 & _) & (_ & E3 & _) & (_ & E4 & _)).
  intros Hp Hp' He.
  repeat (rewrite <- app_assoc in He; cbn [app] in He).
  apply digits_dot_inj in He as [-> He]; [ | assumption | assumption ].
  apply digits_dot_inj in He as [-> He]; [ | assumption | assumption ].
  apply digits_dot_inj in He as [-> He]; [ | assumption | assumption ].
  apply digits_end_inj in He as [-> _]; auto.
Qed.

(** At the start of a delimited dotted quad the pattern matches, and what it
    matches is that dotted quad. *)
Lemma match_here_delimited prev t post :
  dotted_quad t ->
  Bytes.is_word_opt prev = false -> ended_after post ->
  match_here IP_PATTERN prev (t ++ post) = Some (length t).
Proof.
  intros Hq Hprev Hpost.
  destruct (dotted_quad_head t Hq) as (ch & Hh & Hch).
  destruct (dotted_quad_last t Hq) as (cl & Hl & Hcl).
  assert (Hb1 : at_boundary prev (t ++ post) = true).
  { unfold at_boundary. rewrite Hprev.
    destruct t as [ | c t ]; [ discriminate Hh | ]. injection Hh as ->.
    simpl. apply is_digit_word, Hch. }
  assert (Hb2 : at_boundary (last t) post = true).
  { unfold at_boundary. rewrite Hl. simpl. rewrite (is_digit_word _ Hcl).
    unfold ended_after in Hpost. rewrite Hpost. reflexivity. }
  pose proof (accepts_IP_PATTERN_intro prev t post Hq Hb1 Hb2) as Ha.
  destruct (run_complete IP_PATTERN prev t post
              (fun _ rest => Some (length (t ++ post) - length rest)) Ha)
    as [len Hlen]; [ eauto | ].
  fold (match_here IP_PATTERN prev (t ++ post)) in Hlen. rewrite Hlen. f_equal.
  pose proof (match_here_sound _ _ _ _ Hlen) as Hs. apply shape_IP_PATTERN in Hs.
  apply match_here_accepts in Hlen as (t' & post' & He & -> & Ha').
  rewrite He, take_app_length in Hs.
  apply accepts_IP_PATTERN in Ha' as [_ Hb'].
  destruct (dotted_quad_last t' Hs) as (cl' & Hl' & Hcl').
  rewrite last_or_nonempty in Hb' by (destruct t'; [ discriminate Hl' | discriminate ]).
  assert (Hpost' : ended_after post').
  { unfold ended_after. unfold at_boundary in Hb'. rewrite Hl' in Hb'. simpl in Hb'.
    rewrite (is_digit_word _ Hcl') in Hb'. destruct (Bytes.is_word_opt (head post'));
      [ discriminate Hb' | reflexivity ]. }
  rewrite (dotted_quad_unique t t' post post' Hq Hs Hpost Hpost' He). reflexivity.
Qed.

Lemma separated_before_tail c pre :
  separated_before (c :: pre) -> separated_before pre.
Proof.
  unfold separated_before. destruct pre as [ | d pre ]; [ intros _; exact I | ].
  rewrite last_cons. destruct (last (d :: pre)) eqn:E; [ auto | ].
  apply last_None in E. discriminate E.
Qed.

(** A match that starts before a separating byte ends before it. *)
Lemma match_before_separator prev pre s len :
  pre <> [] -> separated_before pre ->
  match_here IP_PATTERN prev (pre ++ s) = Some len ->
  len < length pre.
Proof.
  intros Hne Hsep Hm.
  destruct (Nat.lt_ge_cases len (length pre)) as [ Hlt | Hge ]; [ exact Hlt | exfalso ].
  apply match_here_sound, shape_IP_PATTERN in Hm.
  rewrite take_app_ge in Hm by exact Hge.
  unfold separated_before in Hsep.
  destruct (last pre) as [ z | ] eqn:El; [ | apply last_None in El; contradiction ].
  destruct Hsep as [Hw Hdot].
  assert (Hz : z ∈ pre ++ take (len - length pre) s).
  { apply elem_of_app. left. apply last_Some in El as (pre' & ->).
    apply elem_of_app. right. left. }
  destruct (dotted_quad_bytes _ _ Hm Hz) as [ Hd | Hd ]; [ | contradiction ].
  rewrite (is_digit_word _ Hd) in Hw. discriminate Hw.
Qed.

Lemma scan_finds t post : forall pre prev skip,
  dotted_quad t -> ended_after post ->
  separated_before pre -> Bytes.is_word_opt (last_or prev pre) = false ->
  (pre = [] /\ skip = 0) \/ skip < length pre ->
  t ∈ scan IP_PATTERN prev (pre ++ t ++ post) skip.
Proof.
  induction pre as [ | c pre IH ]; intros prev skip Hq Hpost Hsep Hprev Hskip.
  - destruct Hskip as [ [_ ->] | Hskip ]; [ | simpl in Hskip; lia ].
    cbn [app]. rewrite last_or_nil in Hprev.
    pose proof (match_here_delimited prev t post Hq Hprev Hpost) as Hm.
    destruct (dotted_quad_head t Hq) as (ch & Hh & _).
    destruct t as [ | c0 t ]; [ discriminate Hh | ].
    cbn [app scan]. cbn [app] in Hm. rewrite Hm.
    apply elem_of_cons. left.
    change (c0 :: t ++ post) with ((c0 :: t) ++ post). rewrite take_app_length. reflexivity.
  - assert (Hrec : forall n, (pre = [] /\ n = 0) \/ n < length pre ->
                     t ∈ scan IP_PATTERN (Some c) (pre ++ t ++ post) n).
    { intros n Hn. apply IH; auto.
      - eapply separated_before_tail, Hsep.
      - rewrite last_or_cons in Hprev. exact Hprev. }
    cbn [app scan].
    destruct skip as [ | n ].
    + destruct (match_here IP_PATTERN prev (c :: pre ++ t ++ post)) as [ len | ] eqn:E.
      * right. apply Hrec. right.
        pose proof (match_before_separator prev (c :: pre) (t ++ post) len
                      ltac:(discriminate) Hsep E) as Hlen.
        assert (len <> 0) by (intros ->; exact (IP_PATTERN_nonempty _ _ E)).
        simpl in Hlen. lia.
      * apply Hrec. destruct pre; [ left; auto | right; simpl; lia ].
    + apply Hrec. right. destruct Hskip as [ [Hn _] | Hskip ]; [ discriminate Hn | ].
      simpl in Hskip. lia.
Qed.

(** A dotted quad that stands in the chunk between a separating byte and a
    byte that is no word byte is one of the matches. *)
Lemma delimited_found pre t post :
  dotted_quad t -> separated_before pre -> ended_after post ->
  t ∈ findall IP_PATTERN (pre ++ t ++ post).
Proof.
  intros Hq Hsep Hpost. unfold findall.
  apply scan_finds; auto.
  - unfold separated_before in Hsep. unfold last_or.
    destruct (last pre); [ destruct Hsep as [Hw _]; exact Hw | reflexivity ].
  - destruct pre as [ | c pre ]; [ left; auto | right; simpl; lia ].
Qed.

End MatcherCompleteness2.

(** ** The store *)

Section Updates.

Variable t : Z.
Variable ip : string.

Lemma refreshed_ip d : refreshed t ip d !! "ip" = Some (VStr ip).
Proof.
  unfold refreshed, set_fields. simpl.
  rewrite lookup_insert_ne by discriminate. apply lookup_insert_eq.
Qed.


Lemma refreshed_kept d : d !! "ip" = Some (VStr ip) -> kept d (refreshed t ip d).
Proof.
  intros Hm key Hk. unfold refreshed, set_fields. simpl.
  rewrite lookup_insert_ne by congruence.
  destruct (decide (key = "ip")) as [ -> | Hne ].
  - rewrite lookup_insert_eq. symmetry. exact Hm.
  - rewrite lookup_insert_ne by congruence. reflexivity.
Qed.

Lemma kept_refl d : kept d d.
Proof. intros key _. reflexivity. Qed.

Lemma kept_trans d1 d2 d3 : kept d1 d2 -> kept d2 d3 -> kept d1 d3.
Proof. intros H1 H2 key Hk. rewrite H2, H1 by assumption. reflexivity. Qed.

Lemma all_kept_refl coll : all_kept coll coll.
Proof.
  unfold all_kept. rewrite firstn_all.
  apply Forall2_same_length_lookup_2; [ reflexivity | ].
  intros i x y Hx Hy. replace y with x by congruence. apply kept_refl.
Qed.

Lemma inserted_ip : inserted (upsert_ip t ip) !! "ip" = Some (VStr ip).
Proof.
  unfold inserted, set_fields. simpl.
  rewrite !lookup_insert_ne by discriminate. apply lookup_insert_eq.
Qed.



Lemma matches_upsert_ip d :
  matches (upsert_ip t ip) d = bool_decide (d !! "ip" = Some (VStr ip)).
Proof. reflexivity. Qed.

Lemma docs_of_cons ip' d coll :
  docs_of ip' (d :: coll)
  = if decide (d !! "ip" = Some (VStr ip')) then d :: docs_of ip' coll else docs_of ip' coll.
Proof. unfold docs_of. rewrite filter_cons. reflexivity. Qed.

(** One update, seen on the documents of each address. *)
Lemma docs_of_update ip' coll :
  docs_of ip' (update (upsert_ip t ip) coll) =
  if decide (ip' = ip) then
    match docs_of ip coll with
    | [] => [inserted (upsert_ip t ip)]
    | d :: ds => refreshed t ip d :: ds
    end
  else docs_of ip' coll.
Proof.
  induction coll as [ | d coll IH ].
  - cbn [update upsert_ip upsert]. change (docs_of ip []) with (@nil (gmap string value)).
    rewrite docs_of_cons.
    change ({| filter_field := "ip"; filter_value := VStr ip;
               set := [("ip", VStr ip); ("last_seen", VNum t)];
               set_on_insert := [("first_seen", VNum t)]; upsert := true |})
      with (upsert_ip t ip).
    rewrite inserted_ip.
    destruct (decide (ip' = ip)) as [ -> | Hne ].
    + rewrite decide_True by reflexivity. reflexivity.
    + rewrite decide_False by congruence. reflexivity.
  - cbn [update]. rewrite matches_upsert_ip.
    destruct (bool_decide_reflect (d !! "ip" = Some (VStr ip))) as [ Hm | Hm ].
    + change (set_fields (set (upsert_ip t ip)) d) with (refreshed t ip d).
      rewrite (docs_of_cons ip' (refreshed t ip d) coll), refreshed_ip.
      rewrite (docs_of_cons ip d coll), (decide_True _ _ Hm).
      destruct (decide (ip' = ip)) as [ -> | Hne ].
      * rewrite decide_True by reflexivity. reflexivity.
      * rewrite decide_False by congruence.
        rewrite docs_of_cons, Hm, decide_False by congruence. reflexivity.
    + rewrite (docs_of_cons ip' d (update _ _)), IH.
      rewrite (docs_of_cons ip d coll), (decide_False _ _ Hm).
      destruct (decide (ip' = ip)) as [ -> | Hne ].
      * rewrite (decide_False _ _ Hm). reflexivity.
      * rewrite docs_of_cons. reflexivity.
Qed.

Lemma length_update coll :
  length (update (upsert_ip t ip) coll)
  = length coll + (if docs_of ip coll is [] then 1 else 0).
Proof.
  induction coll as [ | d coll IH ]; [ reflexivity | ].
  cbn [update]. rewrite matches_upsert_ip, docs_of_cons.
  destruct (bool_decide_reflect (d !! "ip" = Some (VStr ip))) as [ Hm | Hm ].
  - rewrite (decide_True _ _ Hm). simpl. lia.
  - rewrite (decide_False _ _ Hm). simpl. rewrite IH. lia.
Qed.

(** An update removes no document and leaves the other fields alone. *)
Lemma update_kept coll : all_kept coll (update (upsert_ip t ip) coll).
Proof.
  unfold all_kept.
  induction coll as [ | d coll IH ]; [ constructor | ].
  cbn [update length]. rewrite matches_upsert_ip.
  destruct (bool_decide_reflect (d !! "ip" = Some (VStr ip))) as [ Hm | Hm ]; cbn [take].
  - constructor; [ apply refreshed_kept, Hm | apply all_kept_refl ].
  - constructor; [ apply kept_refl | exact IH ].
Qed.

Lemma update_ips_unique coll :
  ips_unique coll -> ips_unique (update (upsert_ip t ip) coll).
Proof.
  intros H ip'. rewrite docs_of_update.
  destruct (decide (ip' = ip)) as [ -> | Hne ]; [ | apply H ].
  specialize (H ip). destruct (docs_of ip coll); simpl in *; lia.
Qed.

End Updates.

Section Batches.

Variable t : Z.

Lemma apply_batch_cons op ops coll :
  apply_batch (op :: ops) coll = apply_batch ops (update op coll).
Proof. reflexivity. Qed.





Lemma length_update_le ip coll : length coll <= length (update (upsert_ip t ip) coll).
Proof. rewrite length_update. lia. Qed.

Lemma length_batch_le ips : forall coll,
  length coll <= length (apply_batch (upsert_ip t <$> ips) coll).
Proof.
  induction ips as [ | ip ips IH ]; intros coll; [ reflexivity | ].
  rewrite fmap_cons, apply_batch_cons.
  etransitivity; [ apply (length_update_le ip) | apply IH ].
Qed.

Lemma all_kept_trans coll1 coll2 coll3 :
  length coll1 <= length coll2 ->
  all_kept coll1 coll2 -> all_kept coll2 coll3 -> all_kept coll1 coll3.
Proof.
  unfold all_kept. intros Hle H1 H2.
  apply (Forall2_take _ _ _ (length coll1)) in H2.
  rewrite take_take, Nat.min_l in H2 by exact Hle.
  eapply Forall2_trans; [ | exact H1 | exact H2 ].
  intros x y z. apply kept_trans.
Qed.

(** A batch removes no document and leaves the other fields alone. *)
Lemma batch_kept ips : forall coll,
  all_kept coll (apply_batch (upsert_ip t <$> ips) coll).
Proof.
  induction ips as [ | ip ips IH ]; intros coll; [ apply all_kept_refl | ].
  rewrite fmap_cons, apply_batch_cons.
  eapply all_kept_trans; [ apply (length_update_le ip) | apply update_kept | apply IH ].
Qed.

Lemma batch_ips_unique ips : forall coll,
  ips_unique coll -> ips_unique (apply_batch (upsert_ip t <$> ips) coll).
Proof.
  induction ips as [ | ip ips IH ]; intros coll H; [ exact H | ].
  rewrite fmap_cons, apply_batch_cons. apply IH, update_ips_unique, H.
Qed.

(** The operations that the server applies of a batch of [main]. *)
Lemma ops_of_ips (ips : list string) : forall ops : list update_one,
  (forall op, op ∈ ops -> op ∈ upsert_ip t <$> ips) ->
  exists ips' : list string,
    ops = upsert_ip t <$> ips' /\ forall ip, ip ∈ ips' -> ip ∈ ips.
Proof.
  induction ops as [ | op ops IH ]; intros H.
  - exists []. split; [ reflexivity | ]. intros ip Hin. inversion Hin.
  - destruct IH as (ips' & -> & Hsub); [ intros op' Hin; apply H; right; exact Hin | ].
    destruct (proj1 (list_elem_of_fmap _ _ _) (H op ltac:(left))) as (ip & -> & Hip).
    exists (ip :: ips'). split; [ reflexivity | ].
    intros ip' [ -> | Hin ]%elem_of_cons; auto.
Qed.




End Batches.

Section Connecting.

Variable srv : server.
Variable conn : connection.
Variable max_retries retry_delay : Z.

Lemma create_indexes_run st : create_indexes srv st = (index_events srv, st, Ok tt).
Proof.
  unfold create_indexes, index_events, mbind, io_bind, emit.
  destruct (create_index_raises srv PrivateColl); reflexivity.
Qed.

Lemma connect_loop_unfold remaining attempt st :
  connect_loop srv conn max_retries retry_delay (S remaining) attempt st =
  if connect_raises srv attempt then
    if (Z.of_nat attempt <? max_retries - 1)%Z then
      if ((retry_delay <? 0) || (2 ^ 63 - 1 <? retry_delay * 10 ^ 9))%Z
      then ([EConnect attempt], st, Raise)
      else
        match connect_loop srv conn max_retries retry_delay remaining (S attempt) st with
        | (events, st', r) => (EConnect attempt :: ESleep retry_delay :: events, st', r)
        end
    else ([EConnect attempt], st, Ok None)
  else (EConnect attempt :: index_events srv, st, Ok (Some conn)).
Proof.
  cbn [connect_loop]. unfold mbind, io_bind, emit at 1. cbn [app].
  destruct (connect_raises srv attempt).
  - destruct (Z.of_nat attempt <? max_retries - 1)%Z; [ | reflexivity ].
    unfold sleep.
    destruct ((retry_delay <? 0) || (2 ^ 63 - 1 <? retry_delay * 10 ^ 9))%Z;
      [ reflexivity | ].
    unfold emit.
    destruct (connect_loop srv conn max_retries retry_delay remaining (S attempt) st)
      as [[events st'] r]. reflexivity.
  - rewrite create_indexes_run. unfold mret, io_ret. cbn. rewrite app_nil_r. reflexivity.
Qed.

(** The lengths that [time.sleep] accepts. *)
Lemma sleep_accepted :
  (0 <= retry_delay <= 9223372036)%Z ->
  ((retry_delay <? 0) || (2 ^ 63 - 1 <? retry_delay * 10 ^ 9))%Z = false.
Proof.
  intros H. apply orb_false_intro; [ apply Z.ltb_ge; lia | ].
  apply Z.ltb_ge. change (2 ^ 63 - 1)%Z with 9223372036854775807%Z.
  change (10 ^ 9)%Z with 1000000000%Z. lia.
Qed.

Lemma sleep_refused :
  (retry_delay < 0)%Z ->
  ((retry_delay <? 0) || (2 ^ 63 - 1 <? retry_delay * 10 ^ 9))%Z = true.
Proof. intros H. rewrite (proj2 (Z.ltb_lt _ _) H). reflexivity. Qed.


Lemma connect_loop_exhausted : forall remaining attempt st,
  (Z.of_nat attempt + Z.of_nat remaining = max_retries)%Z ->
  (1 < remaining -> (0 <= retry_delay <= 9223372036)%Z) ->
  (forall i, i < remaining -> connect_raises srv (attempt + i) = true) ->
  connect_loop srv conn max_retries retry_delay remaining attempt st
  = (match remaining with
     | O => []
     | S r => flat_map (fun i => [EConnect i; ESleep retry_delay]) (seq attempt r)
                ++ [EConnect (attempt + r)]
     end, st, Ok None).
Proof.
  induction remaining as [ | remaining IH ]; intros attempt st Hm Hd Hfail;
    [ reflexivity | ].
  rewrite connect_loop_unfold.
  pose proof (Hfail 0 ltac:(lia)) as H0. rewrite Nat.add_0_r in H0. rewrite H0.
  destruct remaining as [ | remaining ].
  - rewrite (proj2 (Z.ltb_ge _ _)) by lia. rewrite Nat.add_0_r. reflexivity.
  - rewrite (proj2 (Z.ltb_lt _ _)) by lia.
    rewrite sleep_accepted by (apply Hd; lia).
    assert (Hd' : 1 < S remaining -> (0 <= retry_delay <= 9223372036)%Z)
      by (intros _; apply Hd; lia).
    rewrite (IH (S attempt) st ltac:(lia) Hd').
    + cbn [seq flat_map app]. replace (S attempt + remaining) with (attempt + S remaining) by lia.
      reflexivity.
    + intros i Hi. replace (S attempt + i) with (attempt + S i) by lia. apply Hfail. lia.
Qed.

Lemma connect_loop_bounded : forall remaining attempt st,
  exists events r,
    connect_loop srv conn max_retries retry_delay remaining attempt st = (events, st, r) /\
    length (attempted events) <= remaining.
Proof.
  induction remaining as [ | remaining IH ]; intros attempt st.
  - exists [], (Ok None). split; [ reflexivity | simpl; lia ].
  - rewrite connect_loop_unfold.
    destruct (connect_raises srv attempt).
    + destruct (Z.of_nat attempt <? max_retries - 1)%Z.
      * destruct ((retry_delay <? 0) || (2 ^ 63 - 1 <? retry_delay * 10 ^ 9))%Z.
        -- eexists _, _. split; [ reflexivity | simpl; lia ].
        -- destruct (IH (S attempt) st) as (events & r & -> & Hlen).
           eexists _, _. split; [ reflexivity | simpl; lia ].
      * eexists _, _. split; [ reflexivity | simpl; lia ].
    + eexists _, _. split; [ reflexivity | ].
      unfold index_events. destruct (create_index_raises srv PrivateColl); simpl; lia.
Qed.

End Connecting.

Section Main.

Lemma with_docs_nil target t st :
  with_docs target (apply_batch (upsert_ip t <$> [])) st = st.
Proof. destruct st, target; reflexivity. Qed.


(** Whether the write fails or not, [store_ips] applies operations of the
    batch and nothing else. *)
Lemma store_ips_any srv target ips t st :
  well_formed_server srv ->
  exists (ips' : list string) events r,
    store_ips srv target ips t st
    = (events, with_docs target (apply_batch (upsert_ip t <$> ips')) st, r) /\
    forall ip, ip ∈ ips' -> ip ∈ ips.
Proof.
  intros Hs. destruct ips as [ | ip ips ].
  - exists [], [], (Ok tt). rewrite with_docs_nil. split; [ reflexivity | auto ].
  - cbn [store_ips]. rewrite fmap_cons. unfold bulk_write. rewrite <- fmap_cons.
    destruct (Hs (upsert_ip t <$> ip :: ips)) as [Hp Ha].
    destruct (bulk_write_raises srv target).
    + destruct (ops_of_ips t (ip :: ips) (applied_before_failure srv (upsert_ip t <$> ip :: ips)))
        as (ips' & -> & Hsub);
        [ intros op Hin; eapply elem_of_submseteq; [ exact Hin | exact Ha ] | ].
      eexists ips', _, _. split; [ reflexivity | exact Hsub ].
    + destruct (ops_of_ips t (ip :: ips) (batch_order srv (upsert_ip t <$> ip :: ips)))
        as (ips' & -> & Hsub);
        [ intros op Hin; rewrite <- Hp; exact Hin | ].
      eexists ips', _, _. split; [ reflexivity | exact Hsub ].
Qed.


(** Whatever fails, the store after a run of [main] is the store before it
    with updates for some of the extracted addresses. *)
Lemma main_store rt st :
  well_formed_server (mongo rt) ->
  exists l1 l2 : list string,
    (main rt st).2
    = with_docs PublicColl (apply_batch (upsert_ip (now rt) <$> l2))
        (with_docs PrivateColl (apply_batch (upsert_ip (now rt) <$> l1)) st) /\
    forall private_ips public_ips,
      extract_ips_from_file (log_file rt) (1024 * 1024) = Ok (private_ips, public_ips) ->
      (forall ip, ip ∈ l1 -> ip ∈ private_ips) /\ (forall ip, ip ∈ l2 -> ip ∈ public_ips).
Proof.
  intros Hs.
  assert (Hnone : exists l1 l2 : list string,
             st = with_docs PublicColl (apply_batch (upsert_ip (now rt) <$> l2))
                    (with_docs PrivateColl (apply_batch (upsert_ip (now rt) <$> l1)) st) /\
             forall private_ips public_ips,
               extract_ips_from_file (log_file rt) (1024 * 1024)
               = Ok (private_ips, public_ips) ->
               (forall ip, ip ∈ l1 -> ip ∈ private_ips) /\
               (forall ip, ip ∈ l2 -> ip ∈ public_ips)).
  { exists [], []. rewrite !with_docs_nil. split; [ reflexivity | ].
    intros pr pu _. split; intros ip Hin; inversion Hin. }
  unfold main, main_try. unfold mbind at 1. unfold io_bind at 1.
  unfold connect_to_mongodb.
  destruct (connect_loop_bounded (mongo rt)
              {| conn_uri := default "mongodb://mongodb:27017/" (getenv rt "MONGODB_URI");
                 conn_database := default "ip_extraction" (getenv rt "DATABASE_NAME");
                 conn_private := "private_ips"; conn_public := "public_ips" |}
              5 5 (Z.to_nat 5) 0 st) as (events & r & -> & _).
  destruct r as [ [ conn | ] | ]; [ | exact Hnone | exact Hnone ].
  destruct (extract_ips_from_file (log_file rt) (1024 * 1024)) as [ [pr pu] | ];
    [ | exact Hnone ].
  unfold mbind, io_bind.
  destruct (store_ips_any (mongo rt) PrivateColl pr (now rt) st Hs)
    as (l1 & ev1 & r1 & -> & Hsub1).
  destruct r1 as [ [] | ].
  - destruct (store_ips_any (mongo rt) PublicColl pu (now rt)
                (with_docs PrivateColl (apply_batch (upsert_ip (now rt) <$> l1)) st) Hs)
      as (l2 & ev2 & r2 & -> & Hsub2).
    exists l1, l2. split.
    + destruct r2 as [ [] | ]; [ | reflexivity ].
      unfold emit, count_documents, close.
      destruct (count_raises (mongo rt) PrivateColl); [ reflexivity | ].
      destruct (count_raises (mongo rt) PublicColl); reflexivity.
    + intros pr' pu' [= <- <-]. split; assumption.
  - exists l1, []. rewrite with_docs_nil. split; [ reflexivity | ].
    intros pr' pu' [= <- <-]. split; [ assumption | ]. intros ip Hin. inversion Hin.
Qed.

Lemma docs_of_batch_other t ip' ips : forall coll,
  ip' ∉ ips -> docs_of ip' (apply_batch (upsert_ip t <$> ips) coll) = docs_of ip' coll.
Proof.
  induction ips as [ | ip ips IH ]; intros coll Hout; [ reflexivity | ].
  apply not_elem_of_cons in Hout as [Hne Hout].
  rewrite fmap_cons, apply_batch_cons, IH, docs_of_update by exact Hout.
  rewrite decide_False by exact Hne. reflexivity.
Qed.

Lemma main_docs rt st target :
  well_formed_server (mongo rt) ->
  exists l : list string,
    docs target (main rt st).2 = apply_batch (upsert_ip (now rt) <$> l) (docs target st) /\
    forall result,
      extract_ips_from_file (log_file rt) (1024 * 1024) = Ok result ->
      forall ip, ip ∈ l -> ip ∈ ips_for target result.
Proof.
  intros Hs. destruct (main_store rt st Hs) as (l1 & l2 & -> & Hsub).
  destruct target.
  - exists l1. split; [ reflexivity | ]. intros [pr pu] He. apply (Hsub pr pu He).
  - exists l2. split; [ reflexivity | ]. intros [pr pu] He. apply (Hsub pr pu He).
Qed.

Lemma main_all_kept rt st target :
  well_formed_server (mongo rt) ->
  length (docs target st) <= length (docs target (main rt st).2) /\
  all_kept (docs target st) (docs target (main rt st).2).
Proof.
  intros Hs. destruct (main_docs rt st target Hs) as (l & -> & _).
  split; [ apply length_batch_le | apply batch_kept ].
Qed.




Lemma plain_server_well_formed : well_formed_server plain_server.
Proof. intros ops. split; [ reflexivity | apply submseteq_nil_l ]. Qed.


Lemma failing_server_well_formed : well_formed_server failing_server.
Proof.
  intros ops. split; [ apply reverse_Permutation | ].
  apply sublist_submseteq, sublist_take.
Qed.






End Main.

(** ** Properties of the pattern and of [validate_ip] *)

(** X1: [validate_ip] answers [True] exactly for the text of four canonical
    octets (decimal, 0 to 255, no leading zero) whose first two lie in 10/8,
    172.16/12 or 192.168/16; the tests for unspecified, reserved and
    multicast addresses never change the answer. *)
Theorem validate_ip_private_ranges (ip : string) :
  validate_ip ip = true <->
  exists a b c d,
    mapM parse_octet (split "." ip) = Some [a; b; c; d] /\ in_rfc1918 a b = true.
Proof. apply validate_ip_spec. Qed.

(** X2: inside one chunk every match of the pattern stands between two word
    boundaries of the chunk. *)
Theorem candidate_is_delimited (chunk m : bytes) :
  m ∈ findall IP_PATTERN chunk -> occurs_as_token m chunk = true.
Proof. apply candidate_delimited. Qed.

Lemma candidate_is_delimited_witness :
  b "8.8.8.8" ∈ findall IP_PATTERN scenario_text /\
  occurs_as_token (b "8.8.8.8") scenario_text = true.
Proof.
  assert (H : b "8.8.8.8" ∈ findall IP_PATTERN scenario_text)
    by (apply list_elem_of_In; vm_compute; right; left; reflexivity).
  split; [ exact H | ].
  exact (candidate_is_delimited _ _ H).
Defined.

(** X3: a match of the pattern is 7 to 15 bytes long, and a chunk holds at
    most one match for every 7 of its bytes. *)
Theorem candidates_bounded (chunk : bytes) :
  (forall c, c ∈ findall IP_PATTERN chunk -> 7 <= length c <= 15) /\
  7 * length (findall IP_PATTERN chunk) <= length chunk.
Proof.
  assert (Hlen : forall c, c ∈ findall IP_PATTERN chunk -> 7 <= length c <= 15)
    by (intros c Hc; eapply dotted_quad_length, candidate_dotted_quad, Hc).
  split; [ exact Hlen | ].
  destruct (scan_interleave IP_PATTERN IP_PATTERN_nonempty chunk None 0 ltac:(lia))
    as (gaps & tail & Hg & Hd).
  rewrite drop_0 in Hd. fold (findall IP_PATTERN chunk) in Hg, Hd.
  rewrite Hd at 2. apply interleave_length; [ | exact Hg ].
  intros m Hm. apply Hlen, Hm.
Qed.

(** X4: the matches that [findall] returns are slices of the chunk that do
    not overlap, in the order of the chunk: the chunk is a gap, the first
    match, a gap, the second match, and so on, and a tail. *)
Theorem matches_do_not_overlap (chunk : bytes) :
  exists gaps tail,
    length gaps = length (findall IP_PATTERN chunk) /\
    chunk = interleave gaps (findall IP_PATTERN chunk) tail.
Proof.
  destruct (scan_interleave IP_PATTERN IP_PATTERN_nonempty chunk None 0 ltac:(lia))
    as (gaps & tail & Hg & Hd).
  rewrite drop_0 in Hd. exists gaps, tail. auto.
Qed.

(** X5: a dotted quad (four octets of one to three digits, each at most 255)
    that stands in a chunk after the start of the chunk or a byte that is
    neither a word byte nor a dot, and before the end of the chunk or a byte
    that is no word byte, is one of the matches. *)
Theorem delimited_address_found (pre t post : bytes) :
  dotted_quad t -> separated_before pre -> ended_after post ->
  t ∈ findall IP_PATTERN (pre ++ t ++ post).
Proof. apply delimited_found. Qed.

Lemma delimited_address_found_witness :
  (dotted_quad (b "10.0.0.5") /\ separated_before (b "from ") /\ ended_after (b " to")) /\
  b "10.0.0.5" ∈ findall IP_PATTERN (b "from " ++ b "10.0.0.5" ++ b " to").
Proof.
  assert (H : dotted_quad (b "10.0.0.5") /\ separated_before (b "from ") /\
              ended_after (b " to")).
  { split; [ | split; [ split; [ reflexivity | discriminate ] | reflexivity ] ].
    exists (b "10"), (b "0"), (b "0"), (b "5").
    split; [ reflexivity | ].
    repeat split; try reflexivity; try (vm_compute; lia); vm_compute; discriminate. }
  split; [ exact H | ].
  destruct H as (H1 & H2 & H3).
  exact (delimited_address_found _ _ _ H1 H2 H3).
Defined.

(** ** Properties of [_process_chunk] *)

(** X6: the two sets of a chunk share no member and together hold every
    candidate of the chunk: no candidate is dropped. *)
Theorem chunk_sets_partition (chunk : bytes) :
  (_process_chunk chunk).1 ∪ (_process_chunk chunk).2 = candidates chunk /\
  (_process_chunk chunk).1 ∩ (_process_chunk chunk).2 = ∅.
Proof. apply process_chunk_partition. Qed.

(** ** Properties of [extract_ips_from_file] *)

(** X7: each of the two lists that a run returns is in ascending
    lexicographic order and holds no string twice. *)
Theorem output_sorted_without_duplicates (w : world) (chunk_size : Z)
        (private_ips public_ips : list string) :
  well_formed w ->
  extract_ips_from_file w chunk_size = Ok (private_ips, public_ips) ->
  (Sorted str_le private_ips /\ NoDup private_ips) /\
  (Sorted str_le public_ips /\ NoDup public_ips).
Proof. apply extract_sorted_NoDup. Qed.

Lemma output_sorted_without_duplicates_witness :
  (well_formed (plain_file repeated_text) /\
   extract_ips_from_file (plain_file repeated_text) 20
   = Ok (["10.0.0.5"; "172.16.0.9"], ["8.8.8.8"])) /\
  (Sorted str_le ["10.0.0.5"; "172.16.0.9"] /\ NoDup ["10.0.0.5"; "172.16.0.9"]) /\
  (Sorted str_le ["8.8.8.8"] /\ NoDup ["8.8.8.8"]).
Proof.
  assert (H : well_formed (plain_file repeated_text) /\
              extract_ips_from_file (plain_file repeated_text) 20
              = Ok (["10.0.0.5"; "172.16.0.9"], ["8.8.8.8"])).
  { split; [ apply plain_file_well_formed | vm_compute; reflexivity ]. }
  split; [ exact H | ].
  exact (output_sorted_without_duplicates _ 20 _ _ (proj1 H) (proj2 H)).
Defined.

(** X8: when the chunk size covers the file and nothing fails, the run
    returns the two sets of [_process_chunk] on the whole content, each
    sorted. *)
Theorem one_chunk_is_process_chunk (w : world) (chunk_size : Z) :
  well_formed w -> fault_free w -> is_file w = true -> content w <> [] ->
  (Z.of_nat (length (content w)) <= chunk_size)%Z ->
  extract_ips_from_file w chunk_size
  = Ok (sorted (elements (_process_chunk (content w)).1),
        sorted (elements (_process_chunk (content w)).2)).
Proof. apply extract_one_chunk. Qed.

Lemma one_chunk_is_process_chunk_witness :
  (well_formed small_file /\ fault_free small_file /\ is_file small_file = true /\
   content small_file <> [] /\ (Z.of_nat (length (content small_file)) <= 1048576)%Z) /\
  extract_ips_from_file small_file 1048576
  = Ok (sorted (elements (_process_chunk (content small_file)).1),
        sorted (elements (_process_chunk (content small_file)).2)).
Proof.
  assert (H : well_formed small_file /\ fault_free small_file /\
              is_file small_file = true /\ content small_file <> [] /\
              (Z.of_nat (length (content small_file)) <= 1048576)%Z).
  { split; [ apply plain_file_well_formed | ].
    split; [ apply plain_file_fault_free | ].
    split; [ reflexivity | ].
    split; [ discriminate | vm_compute; discriminate ]. }
  split; [ exact H | ].
  destruct H as (H1 & H2 & H3 & H4 & H5).
  exact (one_chunk_is_process_chunk _ _ H1 H2 H3 H4 H5).
Defined.

(** X9: with [chunk_size] 0 the first [read] returns no bytes and the run
    returns the empty pair, whatever the file holds. *)
Theorem chunk_size_zero_gives_nothing (w : world) :
  well_formed w -> extract_ips_from_file w 0 = Ok ([], []).
Proof. apply extract_zero. Qed.

Lemma chunk_size_zero_gives_nothing_witness :
  well_formed (plain_file scenario_text) /\
  extract_ips_from_file (plain_file scenario_text) 0 = Ok ([], []).
Proof.
  assert (H : well_formed (plain_file scenario_text)) by apply plain_file_well_formed.
  split; [ exact H | ].
  exact (chunk_size_zero_gives_nothing _ H).
Defined.

(** X10: of the negative values of [chunk_size], -1 makes [read] return
    the whole file, so that the run is the run with the file size as chunk
    size; every value below -1 is refused by the first [read], and the run
    returns the empty pair, whatever the file holds. *)
Theorem negative_chunk_size_run (w : world) (chunk_size : Z) :
  (chunk_size < 0)%Z ->
  extract_ips_from_file w chunk_size
  = if (chunk_size =? -1)%Z
    then extract_ips_from_file w (Z.of_nat (length (content w)))
    else Ok ([], []).
Proof. apply extract_negative. Qed.

Lemma negative_chunk_size_run_witness :
  ((-1 < 0)%Z /\ (-2 < 0)%Z) /\
  extract_ips_from_file split_at_64_file (-1)
  = extract_ips_from_file split_at_64_file
      (Z.of_nat (length (content split_at_64_file))) /\
  extract_ips_from_file split_at_64_file (-2) = Ok ([], []).
Proof.
  assert (H : (-1 < 0)%Z /\ (-2 < 0)%Z) by (split; reflexivity).
  split; [ exact H | ].
  split.
  - exact (negative_chunk_size_run split_at_64_file (-1) (proj1 H)).
  - exact (negative_chunk_size_run split_at_64_file (-2) (proj2 H)).
Defined.

(** X11: with a positive [chunk_size] and no failing [read], the loop
    submits as many chunks as the file size divided by the chunk size,
    rounded up. *)
Theorem chunk_count (w : world) (chunk_size : Z) :
  (forall k, read_raises w k = false) -> (0 < chunk_size)%Z ->
  exists chunks,
    read_loop w chunk_size (length (content w)) 0 (content w) = Ok chunks /\
    length chunks
    = (length (content w) + Z.to_nat chunk_size - 1) / Z.to_nat chunk_size.
Proof.
  intros Hr Hpos. exists (file_chunks w chunk_size).
  split; [ apply read_loop_ok; [ lia | exact Hr ] | ].
  apply chunks_of_count; [ exact Hpos | lia ].
Qed.

Lemma chunk_count_witness :
  ((forall k, read_raises (plain_file repeated_text) k = false) /\ (0 < 20)%Z) /\
  exists chunks,
    read_loop (plain_file repeated_text) 20
              (length (content (plain_file repeated_text))) 0
              (content (plain_file repeated_text)) = Ok chunks /\
    length chunks
    = (length (content (plain_file repeated_text)) + Z.to_nat 20 - 1) / Z.to_nat 20.
Proof.
  assert (H : (forall k, read_raises (plain_file repeated_text) k = false) /\ (0 < 20)%Z)
    by (split; [ intros k; reflexivity | reflexivity ]).
  split; [ exact H | ].
  exact (chunk_count (plain_file repeated_text) 20 (proj1 H) (proj2 H)).
Defined.

(** X12: with a positive [chunk_size] and no failing [read], every chunk
    submitted holds at least one byte and at most [chunk_size] bytes, and
    every chunk but the last holds exactly [chunk_size] bytes. *)
Theorem chunk_sizes (w : world) (chunk_size : Z) :
  (forall k, read_raises w k = false) -> (0 < chunk_size)%Z ->
  exists chunks,
    read_loop w chunk_size (length (content w)) 0 (content w) = Ok chunks /\
    forall k chunk,
      chunks !! k = Some chunk ->
      1 <= length chunk <= Z.to_nat chunk_size /\
      (S k < length chunks -> length chunk = Z.to_nat chunk_size).
Proof.
  intros Hr Hpos. exists (file_chunks w chunk_size).
  split; [ apply read_loop_ok; [ lia | exact Hr ] | ].
  intros k chunk Hk. eapply chunks_of_sizes; eauto.
Qed.

Lemma chunk_sizes_witness :
  ((forall k, read_raises (plain_file repeated_text) k = false) /\ (0 < 20)%Z) /\
  exists chunks,
    read_loop (plain_file repeated_text) 20
              (length (content (plain_file repeated_text))) 0
              (content (plain_file repeated_text)) = Ok chunks /\
    forall k chunk,
      chunks !! k = Some chunk ->
      1 <= length chunk <= Z.to_nat 20 /\
      (S k < length chunks -> length chunk = Z.to_nat 20).
Proof.
  assert (H : (forall k, read_raises (plain_file repeated_text) k = false) /\ (0 < 20)%Z)
    by (split; [ intros k; reflexivity | reflexivity ]).
  split; [ exact H | ].
  exact (chunk_sizes (plain_file repeated_text) 20 (proj1 H) (proj2 H)).
Defined.

(** X13: whatever a run returns, in either list, is the text of a match of
    the pattern inside one of the chunks: four dot-separated octets of one to
    three digits, each at most 255. *)
Theorem returned_addresses_are_dotted_quads (w : world) (chunk_size : Z)
        (private_ips public_ips : list string) (x : string) :
  well_formed w ->
  extract_ips_from_file w chunk_size = Ok (private_ips, public_ips) ->
  x ∈ private_ips ++ public_ips ->
  exists c chunk,
    chunk ∈ file_chunks w chunk_size /\ c ∈ findall IP_PATTERN chunk /\
    dotted_quad c /\ x = string_of_list_ascii c.
Proof. apply extract_members_dotted_quad. Qed.

Lemma returned_addresses_are_dotted_quads_witness :
  (well_formed (plain_file repeated_text) /\
   extract_ips_from_file (plain_file repeated_text) 20
   = Ok (["10.0.0.5"; "172.16.0.9"], ["8.8.8.8"]) /\
   "8.8.8.8" ∈ ["10.0.0.5"; "172.16.0.9"] ++ ["8.8.8.8"]) /\
  exists c chunk,
    chunk ∈ file_chunks (plain_file repeated_text) 20 /\
    c ∈ findall IP_PATTERN chunk /\
    dotted_quad c /\ "8.8.8.8" = string_of_list_ascii c.
Proof.
  assert (H : well_formed (plain_file repeated_text) /\
              extract_ips_from_file (plain_file repeated_text) 20
              = Ok (["10.0.0.5"; "172.16.0.9"], ["8.8.8.8"]) /\
              "8.8.8.8" ∈ ["10.0.0.5"; "172.16.0.9"] ++ ["8.8.8.8"]).
  { split; [ apply plain_file_well_formed | ].
    split; [ vm_compute; reflexivity | ].
    apply list_elem_of_In. simpl. auto. }
  split; [ exact H | ].
  destruct H as (H1 & H2 & H3).
  exact (returned_addresses_are_dotted_quads _ 20 _ _ _ H1 H2 H3).
Defined.

(** X14: every member of the private list that a run returns is the text of
    four canonical octets whose first two lie in 10/8, 172.16/12 or
    192.168/16. *)
Theorem private_list_is_rfc1918 (w : world) (chunk_size : Z)
        (private_ips public_ips : list string) (x : string) :
  well_formed w ->
  extract_ips_from_file w chunk_size = Ok (private_ips, public_ips) ->
  x ∈ private_ips ->
  exists a b c d,
    mapM parse_octet (split "." x) = Some [a; b; c; d] /\ in_rfc1918 a b = true.
Proof.
  intros Hw He Hx. apply validate_ip_spec.
  eapply extract_private_members; eauto.
Qed.

Lemma private_list_is_rfc1918_witness :
  (well_formed (plain_file repeated_text) /\
   extract_ips_from_file (plain_file repeated_text) 20
   = Ok (["10.0.0.5"; "172.16.0.9"], ["8.8.8.8"]) /\
   "172.16.0.9" ∈ ["10.0.0.5"; "172.16.0.9"]) /\
  exists a b c d,
    mapM parse_octet (split "." "172.16.0.9") = Some [a; b; c; d] /\
    in_rfc1918 a b = true.
Proof.
  assert (H : well_formed (plain_file repeated_text) /\
              extract_ips_from_file (plain_file repeated_text) 20
              = Ok (["10.0.0.5"; "172.16.0.9"], ["8.8.8.8"]) /\
              "172.16.0.9" ∈ ["10.0.0.5"; "172.16.0.9"]).
  { split; [ apply plain_file_well_formed | ].
    split; [ vm_compute; reflexivity | ].
    apply list_elem_of_In. simpl. auto. }
  split; [ exact H | ].
  destruct H as (H1 & H2 & H3).
  exact (private_list_is_rfc1918 _ 20 _ _ _ H1 H2 H3).
Defined.

(** X15: when nothing fails, a dotted quad that stands delimited inside one
    of the chunks (after the start of the chunk or a byte that is neither a
    word byte nor a dot, before the end of the chunk or a byte that is no
    word byte) is returned: in the private list when [validate_ip] accepts
    its text, in the public list otherwise. *)
Theorem delimited_address_is_returned (w : world) (chunk_size : Z)
        (private_ips public_ips : list string) (pre t post : bytes) :
  well_formed w -> fault_free w -> is_file w = true -> content w <> [] ->
  extract_ips_from_file w chunk_size = Ok (private_ips, public_ips) ->
  pre ++ t ++ post ∈ file_chunks w chunk_size ->
  dotted_quad t -> separated_before pre -> ended_after post ->
  string_of_list_ascii t
  ∈ (if validate_ip (string_of_list_ascii t) then private_ips else public_ips).
Proof.
  intros Hw Hff Hf Hne He Hin Hq Hsep Hend.
  destruct (extract_complete w chunk_size Hw Hff Hf Hne) as (pr & pu & He' & Hx).
  rewrite He in He'. injection He' as <- <-.
  pose proof (delimited_found pre t post Hq Hsep Hend) as Hm.
  assert (Hc : string_of_list_ascii t ∈ candidates (pre ++ t ++ post)).
  { unfold candidates. apply elem_of_list_to_set, list_elem_of_fmap.
    exists t. split; [ symmetry; eapply decode_candidate, Hm | exact Hm ]. }
  destruct (Hx (string_of_list_ascii t)) as [H1 H2].
  destruct (validate_ip (string_of_list_ascii t)) eqn:Ev.
  - apply H1. exists (pre ++ t ++ post). split; [ exact Hin | ].
    apply process_chunk_private. auto.
  - apply H2. exists (pre ++ t ++ post). split; [ exact Hin | ].
    apply process_chunk_public. auto.
Qed.

Lemma delimited_address_is_returned_witness :
  (well_formed small_file /\ fault_free small_file /\ is_file small_file = true /\
   content small_file <> [] /\
   extract_ips_from_file small_file 1048576 = Ok (["10.0.0.5"], ["8.8.8.8"]) /\
   b "from " ++ b "10.0.0.5" ++ b " to 8.8.8.8" ∈ file_chunks small_file 1048576 /\
   dotted_quad (b "10.0.0.5") /\ separated_before (b "from ") /\
   ended_after (b " to 8.8.8.8")) /\
  string_of_list_ascii (b "10.0.0.5")
  ∈ (if validate_ip (string_of_list_ascii (b "10.0.0.5"))
     then ["10.0.0.5"] else ["8.8.8.8"]).
Proof.
  assert (H : well_formed small_file /\ fault_free small_file /\
              is_file small_file = true /\ content small_file <> [] /\
              extract_ips_from_file small_file 1048576 = Ok (["10.0.0.5"], ["8.8.8.8"]) /\
              b "from " ++ b "10.0.0.5" ++ b " to 8.8.8.8" ∈ file_chunks small_file 1048576 /\
              dotted_quad (b "10.0.0.5") /\ separated_before (b "from ") /\
              ended_after (b " to 8.8.8.8")).
  { split; [ apply plain_file_well_formed | ].
    split; [ apply plain_file_fault_free | ].
    split; [ reflexivity | ].
    split; [ discriminate | ].
    split; [ vm_compute; reflexivity | ].
    split; [ apply list_elem_of_In; vm_compute; left; reflexivity | ].
    split; [ | split; [ split; [ reflexivity | discriminate ] | reflexivity ] ].
    exists (b "10"), (b "0"), (b "0"), (b "5").
    split; [ reflexivity | ].
    repeat split; try reflexivity; try (vm_compute; lia); vm_compute; discriminate. }
  split; [ exact H | ].
  destruct H as (H1 & H2 & H3 & H4 & H5 & H6 & H7 & H8 & H9).
  exact (delimited_address_is_returned _ _ _ _ _ _ _ H1 H2 H3 H4 H5 H6 H7 H8 H9).
Defined.

(** ** Properties of [connect_to_mongodb] *)





(** X18: whatever the server does and whatever the arguments are, the
    function makes no more than [max_retries] attempts, none at all when
    [max_retries] is zero or negative, and leaves the store as it is. *)
Theorem connection_attempts_bounded (srv : server)
        (uri database private_collection public_collection : string)
        (max_retries retry_delay : Z) (st : store) :
  exists events r,
    connect_to_mongodb srv uri database private_collection public_collection
                       max_retries retry_delay st = (events, st, r) /\
    length (attempted events) <= Z.to_nat max_retries.
Proof. apply connect_loop_bounded. Qed.

(** X19: with a negative [retry_delay] and more than one attempt allowed, a
    first attempt that fails ends the function with the error of
    [time.sleep]: it neither retries nor returns. *)
Theorem negative_delay_raises (srv : server)
        (uri database private_collection public_collection : string)
        (max_retries retry_delay : Z) (st : store) :
  connect_raises srv 0 = true -> (1 < max_retries)%Z -> (retry_delay < 0)%Z ->
  connect_to_mongodb srv uri database private_collection public_collection
                     max_retries retry_delay st
  = ([EConnect 0], st, Raise).
Proof.
  intros H0 Hm Hd. unfold connect_to_mongodb.
  destruct (Z.to_nat max_retries) as [ | r ] eqn:E; [ lia | ].
  rewrite connect_loop_unfold, H0.
  rewrite (proj2 (Z.ltb_lt _ _)) by (simpl; lia).
  rewrite sleep_refused by exact Hd. reflexivity.
Qed.

Lemma negative_delay_raises_witness :
  (connect_raises unreachable_server 0 = true /\ (1 < 5)%Z /\ (-1 < 0)%Z) /\
  connect_to_mongodb unreachable_server "uri" "db" "private" "public" 5 (-1) empty_store
  = ([EConnect 0], empty_store, Raise).
Proof.
  assert (H : connect_raises unreachable_server 0 = true /\ (1 < 5)%Z /\ (-1 < 0)%Z).
  { split; [ reflexivity | split; reflexivity ]. }
  split; [ exact H | ].
  exact (negative_delay_raises unreachable_server _ _ _ _ 5 (-1) empty_store
           (proj1 H) (proj1 (proj2 H)) (proj2 (proj2 H))).
Defined.

(** ** Properties of [main] *)

(** X20: when the five attempts to connect fail, [main] ends after four
    sleeps of five seconds: the log file is not looked at, nothing is written
    and nothing is printed. *)
Theorem main_without_connection (rt : runtime) (st : store) :
  (forall i, i < 5 -> connect_raises (mongo rt) i = true) ->
  main rt st = (retries 4 5 ++ [EConnect 4], st).
Proof.
  intros Hfail. unfold main, main_try. unfold mbind at 1. unfold io_bind at 1.
  unfold connect_to_mongodb.
  rewrite (connect_loop_exhausted _ _ 5 5 (Z.to_nat 5) 0 st); try (simpl; lia); auto.
Qed.

Lemma main_without_connection_witness :
  (forall i, i < 5 ->
     connect_raises (mongo (runtime_on unreachable_server scenario_text 100)) i = true) /\
  main (runtime_on unreachable_server scenario_text 100) empty_store
  = (retries 4 5 ++ [EConnect 4], empty_store).
Proof.
  assert (H : forall i, i < 5 ->
                connect_raises (mongo (runtime_on unreachable_server scenario_text 100)) i
                = true) by reflexivity.
  split; [ exact H | ].
  exact (main_without_connection (runtime_on unreachable_server scenario_text 100)
           empty_store H).
Defined.







(** ** What [main] does to the store *)







(** X27: over any number of iterations of the loop of [__main__], and
    whatever fails in them, no document is removed or moved, and a document
    changes in its [last_seen] only; the server is taken to apply operations
    of the batch that it was sent, and no other. *)
Theorem documents_are_kept (rts : list runtime) (st : store) (target : collection_name) :
  Forall (fun rt => well_formed_server (mongo rt)) rts ->
  all_kept (docs target st) (docs target (main_loop rts st).2).
Proof.
  intros H. revert st.
  induction H as [ | rt rts Hs _ IH ]; intros st; [ apply all_kept_refl | ].
  cbn [main_loop].
  destruct (main_all_kept rt st target Hs) as [Hle Hk].
  destruct (main rt st) as [events st1].
  specialize (IH st1). destruct (main_loop rts st1) as [events' st2].
  cbn [snd] in *. eapply all_kept_trans; [ exact Hle | exact Hk | exact IH ].
Qed.

Lemma documents_are_kept_witness :
  Forall (fun rt => well_formed_server (mongo rt))
         [runtime_on failing_server repeated_text 200; plain_runtime scenario_text 300] /\
  all_kept
    (docs PrivateColl
       {| private_docs := [inserted (upsert_ip 100 "10.0.0.5")]; public_docs := [] |})
    (docs PrivateColl
       (main_loop
          [runtime_on failing_server repeated_text 200; plain_runtime scenario_text 300]
          {| private_docs := [inserted (upsert_ip 100 "10.0.0.5")];
             public_docs := [] |}).2).
Proof.
  assert (H : Forall (fun rt => well_formed_server (mongo rt))
                [runtime_on failing_server repeated_text 200;
                 plain_runtime scenario_text 300]).
  { constructor; [ apply failing_server_well_formed | ].
    constructor; [ apply plain_server_well_formed | constructor ]. }
  split; [ exact H | ].
  exact (documents_are_kept _ _ PrivateColl H).
Defined.

(** X28: whatever fails, a run of [main] on a collection in which no
    address has two documents leaves it so, on a server that applies
    operations of the batch that it was sent, and no other. *)
Theorem unique_addresses_preserved (rt : runtime) (st : store) (target : collection_name) :
  well_formed_server (mongo rt) ->
  ips_unique (docs target st) -> ips_unique (docs target (main rt st).2).
Proof.
  intros Hs Hu. destruct (main_docs rt st target Hs) as (l & -> & _).
  apply batch_ips_unique, Hu.
Qed.

Lemma unique_addresses_preserved_witness :
  (well_formed_server (mongo (runtime_on failing_server repeated_text 200)) /\
   ips_unique (docs PrivateColl empty_store)) /\
  ips_unique (docs PrivateColl
                (main (runtime_on failing_server repeated_text 200) empty_store).2).
Proof.
  assert (H : well_formed_server (mongo (runtime_on failing_server repeated_text 200)) /\
              ips_unique (docs PrivateColl empty_store)).
  { split; [ apply failing_server_well_formed | intros ip; simpl; lia ]. }
  split; [ exact H | ].
  exact (unique_addresses_preserved (runtime_on failing_server repeated_text 200)
           empty_store PrivateColl (proj1 H) (proj2 H)).
Defined.

(** X29: whatever fails, a run of [main] leaves in a collection the
    documents of every address that is not in the list extracted for it, on
    a server that applies operations of the batch that it was sent, and no
    other. *)
Theorem other_addresses_untouched (rt : runtime) (st : store)
        (result : list string * list string) (target : collection_name) (ip : string) :
  well_formed_server (mongo rt) ->
  extract_ips_from_file (log_file rt) (1024 * 1024) = Ok result ->
  ip ∉ ips_for target result ->
  docs_of ip (docs target (main rt st).2) = docs_of ip (docs target st).
Proof.
  intros Hs He Hout. destruct (main_docs rt st target Hs) as (l & -> & Hsub).
  apply docs_of_batch_other. intros Hin. apply Hout, (Hsub result He), Hin.
Qed.

Lemma other_addresses_untouched_witness :
  (well_formed_server (mongo (plain_runtime (content small_file) 200)) /\
   extract_ips_from_file (log_file (plain_runtime (content small_file) 200)) (1024 * 1024)
   = Ok (["10.0.0.5"], ["8.8.8.8"]) /\
   "8.8.8.8" ∉ ips_for PrivateColl (["10.0.0.5"], ["8.8.8.8"])) /\
  docs_of "8.8.8.8"
    (docs PrivateColl
       (main (plain_runtime (content small_file) 200)
             {| private_docs := [inserted (upsert_ip 100 "8.8.8.8")];
                public_docs := [] |}).2)
  = docs_of "8.8.8.8"
      (docs PrivateColl
         {| private_docs := [inserted (upsert_ip 100 "8.8.8.8")]; public_docs := [] |}).
Proof.
  assert (H : well_formed_server (mongo (plain_runtime (content small_file) 200)) /\
              extract_ips_from_file (log_file (plain_runtime (content small_file) 200))
                                    (1024 * 1024)
              = Ok (["10.0.0.5"], ["8.8.8.8"]) /\
              "8.8.8.8" ∉ ips_for PrivateColl (["10.0.0.5"], ["8.8.8.8"])).
  { split; [ apply plain_server_well_formed | ].
    split; [ vm_compute; reflexivity | ].
    simpl. intros [ Heq | Hin ]%elem_of_cons; [ discriminate | inversion Hin ]. }
  split; [ exact H | ].
  exact (other_addresses_untouched (plain_runtime (content small_file) 200)
           {| private_docs := [inserted (upsert_ip 100 "8.8.8.8")]; public_docs := [] |}
           (["10.0.0.5"], ["8.8.8.8"]) PrivateColl "8.8.8.8"
           (proj1 H) (proj1 (proj2 H)) (proj2 (proj2 H))).
Defined.


